(** * ProcessEvent.log.py: the pattern hierarchy, the matcher and the reporter

    A shallow embedding of [src/ProcessEvent.log.py].  The class
    [EventPattern] becomes a tree-shaped record, the class variable
    [EventPattern._patterns] becomes the forest that every operation takes
    and gives back, and a reference to a pattern object becomes the list of
    child indices that leads to it from the forest.  Exceptions and
    applications of a compiled regular expression are kept in the result
    type [outcome]. *)

From stdpp Require Import base list strings gmap pretty.
From Stdlib Require Import Ascii ZArith Lia.

(** ** Results of running Python code *)

Inductive Exn := ValueError | IndexError | ReError.

(** One application of a compiled regular expression: the [patternId] of the
    pattern whose [regEx] ran, and the message it ran on. *)
Definition Applied : Type := string * string.

(** A call either returns a value, together with the regular expressions it
    applied on the way, or raises. *)
Inductive outcome (A : Type) :=
| Returned (a : A) (applied : list Applied)
| Raised (e : Exn).
Arguments Returned {A} a applied.
Arguments Raised {A} e.

Global Instance outcome_ret : MRet outcome := λ A a, Returned a [].

Global Instance outcome_bind : MBind outcome := λ A B f m,
  match m with
  | Raised e => Raised e
  | Returned a l =>
      match f a with
      | Raised e => Raised e
      | Returned b l' => Returned b (l ++ l')
      end
  end.

(** ** The [re] module, as far as the script uses it *)

Module Re.
(** A match object: [groupdict()], the named groups in the order of the
    pattern, each with its captured substring, [None] for a group that
    took no part in the match. *)
Record Match := mkMatch { groupdict : list (string * option string) }.

(** A compiled pattern object: its source [pattern], the names of
    [groupindex] and the method [match], anchored at the start of the
    string. *)
Record Regex := mkRegex {
  pattern : string;
  groupindex : list string;
  match_ : string → option Match
}.
End Re.

(** ** class Event *)

(** The fields [__init__] reads from the match of the line grammar.  The
    field [match], the match object itself, is read by nothing and is left
    out. *)

Module Event.
Record t := mk {
  type : Z;
  group : string;
  id : string;
  thread : string;
  message : string
}.
End Event.

(** ** class EventPattern *)

#[warnings="-register-all"]
Inductive EventPattern := mkEventPattern {
  patternId : string;
  name : string;
  regEx : Re.Regex;
  groupNames : list string;
  groupValues : list (gset string);
  parentId : string;
  events : list Event.t;
  subPatterns : list EventPattern
}.

(** A reference to a pattern object: the indices to follow, first into the
    forest (or into the [subPatterns] of the pattern the reference is
    relative to), then into [subPatterns] at every level. *)
Abbreviation ref := (list nat).

Definition set_events (self : EventPattern) (ev : list Event.t) :=
  mkEventPattern (patternId self) (name self) (regEx self) (groupNames self)
    (groupValues self) (parentId self) ev (subPatterns self).

Definition set_groupValues (self : EventPattern) (gv : list (gset string)) :=
  mkEventPattern (patternId self) (name self) (regEx self) (groupNames self)
    gv (parentId self) (events self) (subPatterns self).

Definition set_subPatterns (self : EventPattern) (subs : list EventPattern) :=
  mkEventPattern (patternId self) (name self) (regEx self) (groupNames self)
    (groupValues self) (parentId self) (events self) subs.

(** [len(self.events)], the number the report calls occurances and the
    specification calls matchCount. *)
Definition matchCount (self : EventPattern) : nat := length (events self).

(** *** addEvent *)

(** [list.index]: the first position of [x], [ValueError] when absent. *)
Fixpoint index (l : list string) (x : string) : outcome nat :=
  match l with
  | [] => Raised ValueError
  | y :: l' => if String.eqb y x then mret 0 else i ← index l' x; mret (S i)
  end.

(** The loop [for ng in match.groupdict()] of [addEvent];
    [match.group(ng)] is the value [groupdict()] holds for [ng]. *)
Fixpoint addGroups (names : list string) (values : list (gset string))
    (gd : list (string * option string)) : outcome (list (gset string)) :=
  match gd with
  | [] => mret values
  | (ng, captured) :: gd' =>
      i ← index names ng;
      let value := match captured with None => "-None-" | Some v => v end in
      match values !! i with
      | None => Raised IndexError
      | Some s => addGroups names (<[i := {[value]} ∪ s]> values) gd'
      end
  end.

Definition addEvent (self : EventPattern) (event : Event.t) (m : Re.Match)
    : outcome EventPattern :=
  let self := set_events self (events self ++ [event]) in
  values ← addGroups (groupNames self) (groupValues self) (Re.groupdict m);
  mret (set_groupValues self values).

(** [self.regEx.match(event.message)] *)
Definition applyRegex (self : EventPattern) (msg : string)
    : outcome (option Re.Match) :=
  Returned (Re.match_ (regEx self) msg) [(patternId self, msg)].

(** *** matchEvent *)

(** The loop [for p in self.subPatterns] of [matchEvent]: the children
    after the loop, and the position of the child [p] the loop returned at,
    [None] when it ran to its end. *)
Definition matchSubPatterns
    (matchEvent : EventPattern → outcome (EventPattern * option ref))
    : list EventPattern → outcome (list EventPattern * option nat) :=
  fix loop subs :=
    match subs with
    | [] => mret ([], None)
    | p :: rest =>
        '(p', r) ← matchEvent p;
        match r with
        | Some _ => mret (p' :: rest, Some 0)
        | None => '(rest', k) ← loop rest; mret (p' :: rest', S <$> k)
        end
    end.

(** The reference returned is relative to [self]: [[]] for [return self],
    [[i]] for [return p] with [p] the [i]-th of [self.subPatterns]. *)
Fixpoint matchEvent (self : EventPattern) (event : Event.t)
    : outcome (EventPattern * option ref) :=
  m ← applyRegex self (Event.message event);
  match m with
  | None => mret (self, None)
  | Some mt =>
      '(subs, k) ← (if (0 <? length (subPatterns self))
                    then matchSubPatterns (λ p, matchEvent p event)
                           (subPatterns self)
                    else mret (subPatterns self, None));
      match k with
      | Some i => mret (set_subPatterns self subs, Some [i])
      | None =>
          self' ← addEvent (set_subPatterns self subs) event mt;
          mret (self', Some [])
      end
  end.

(** *** mainMatchEvent *)

(** [typeFilter != None and event.type != typeFilter] *)
Definition filteredOut (typeFilter : option Z) (event : Event.t) : bool :=
  match typeFilter with
  | None => false
  | Some t => negb (Event.type event =? t)%Z
  end.

(** A reference found at position [i] of a list is at position [S i] of the
    list with one more element in front. *)
Definition shift (r : option ref) : option ref :=
  (λ r, match r with [] => [] | i :: r' => S i :: r' end) <$> r.

(** The loop [for p in EventPattern._patterns] of [mainMatchEvent]: the
    forest after the loop and the value of [ret], or of [sp] when the loop
    returned it. *)
Fixpoint matchPatterns (event : Event.t) (pats : list EventPattern)
    : outcome (list EventPattern * option ref) :=
  match pats with
  | [] => mret ([], None)
  | p :: rest =>
      m ← applyRegex p (Event.message event);
      match m with
      | None => '(rest', r) ← matchPatterns event rest; mret (p :: rest', shift r)
      | Some mt =>
          '(p1, sp) ← (if 0 <? length (subPatterns p)
                       then matchEvent p event
                       else mret (p, None));
          match sp with
          | Some rel => mret (p1 :: rest, Some (0 :: rel))
          | None =>
              p2 ← addEvent p1 event mt;
              mret (p2 :: rest, Some [0])
          end
      end
  end.

(** The global [typeFilter] is a parameter, the class variable [_patterns]
    is taken and given back.  The reference returned is relative to the
    forest. *)
Definition mainMatchEvent (typeFilter : option Z)
    (_patterns : list EventPattern) (event : Event.t)
    : outcome (list EventPattern * option ref) :=
  if filteredOut typeFilter event then mret (_patterns, None)
  else matchPatterns event _patterns.

(** The part of [mainLoop] that feeds the parsed events, one at a time and in
    order, to [mainMatchEvent]; what [mainMatchEvent] returns is dropped. *)
Fixpoint mainLoop (typeFilter : option Z) (_patterns : list EventPattern)
    (parsed : list Event.t) : outcome (list EventPattern) :=
  match parsed with
  | [] => mret _patterns
  | e :: rest =>
      '(_patterns, _) ← mainMatchEvent typeFilter _patterns e;
      mainLoop typeFilter _patterns rest
  end.

(** *** References into the forest *)

(** The object a reference relative to [self] points at. *)
Fixpoint deref (self : EventPattern) (r : ref) : option EventPattern :=
  match r with
  | [] => Some self
  | i :: r' =>
      match subPatterns self !! i with
      | None => None
      | Some p => deref p r'
      end
  end.

(** The object a reference relative to the forest points at. *)
Definition derefForest (_patterns : list EventPattern) (r : ref)
    : option EventPattern :=
  match r with
  | [] => None
  | i :: r' =>
      match _patterns !! i with
      | None => None
      | Some p => deref p r'
      end
  end.

(** A mutation [f] of the object behind a reference, seen from [self]. *)
Fixpoint update (f : EventPattern → EventPattern) (r : ref)
    (self : EventPattern) : EventPattern :=
  match r with
  | [] => f self
  | i :: r' => set_subPatterns self (alter (update f r') i (subPatterns self))
  end.

Definition updateForest (f : EventPattern → EventPattern) (r : ref)
    (_patterns : list EventPattern) : list EventPattern :=
  match r with
  | [] => _patterns
  | i :: r' => alter (update f r') i _patterns
  end.

(** *** Building the forest *)

(** The loop [for p in pattern.subPatterns] of [findSubPatternWithId]. *)
Definition findAmong (find : EventPattern → option ref) (id : string)
    : list EventPattern → option ref :=
  fix loop subs :=
    match subs with
    | [] => None
    | p :: rest =>
        if String.eqb (patternId p) id then Some [0]
        else match find p with
             | Some sp => Some (0 :: sp)
             | None => shift (loop rest)
             end
    end.

(** The reference returned is relative to [pattern]. *)
Fixpoint findSubPatternWithId (pattern : EventPattern) (id : string)
    : option ref :=
  findAmong (λ p, findSubPatternWithId p id) id (subPatterns pattern).

(** [x.subPatterns.append(pattern)] *)
Definition appendSubPattern (pattern x : EventPattern) : EventPattern :=
  set_subPatterns x (subPatterns x ++ [pattern]).

Definition addSubPattern (_patterns : list EventPattern)
    (pattern : EventPattern) : list EventPattern * bool :=
  (fix loop pats :=
     match pats with
     | [] => ([], false)
     | p :: rest =>
         if String.eqb (parentId pattern) (patternId p)
         then (appendSubPattern pattern p :: rest, true)
         else match findSubPatternWithId p (parentId pattern) with
              | Some sp => (update (appendSubPattern pattern) sp p :: rest, true)
              | None => let '(rest', ret) := loop rest in (p :: rest', ret)
              end
     end) _patterns.

(** A row of the pattern file, as [csv.DictReader] hands it over. *)
Record Row := mkRow { Name : string; MessageRegEx : string; parent : string }.

Section Loading.
(** [re.compile]; [None] when it raises [re.error]. *)
Variable compile : string → option Re.Regex.

(** The object [__init__] sets up, before it is put into the forest. *)
Definition newPattern (name regEx parent : string) : outcome EventPattern :=
  match compile regEx with
  | None => Raised ReError
  | Some r =>
      mret (mkEventPattern name name r (Re.groupindex r)
              ((λ _, ∅) <$> Re.groupindex r) parent [] [])
  end.

(** [EventPattern(name, regEx, parent)] *)
Definition __init__ (_patterns : list EventPattern)
    (name regEx parent : string) : outcome (list EventPattern) :=
  self ← newPattern name regEx parent;
  if (0 <? String.length (parentId self))
  then mret (addSubPattern _patterns self).1
  else mret (_patterns ++ [self]).

(** The loop of [loadCsvFile] over the rows of the file. *)
Fixpoint loadCsvFile (_patterns : list EventPattern) (rows : list Row)
    : outcome (list EventPattern) :=
  match rows with
  | [] => mret _patterns
  | row :: rest =>
      _patterns ← __init__ _patterns (Name row) (MessageRegEx row) (parent row);
      loadCsvFile _patterns rest
  end.
End Loading.

(** *** The report *)

Definition nl : string := String (Ascii.ascii_of_nat 10) "".

Fixpoint spaces (n : nat) : string :=
  match n with 0 => "" | S n' => String " "%char (spaces n') end.

(** The format field [{:4d}]: decimal digits, padded on the left with
    spaces to four characters. *)
Definition format_4d (n : nat) : string :=
  let digits := pretty n in
  spaces (4 - String.length digits) +:+ digits.

Section Report.
(** The global [showDetail]. *)
Variable showDetail : bool.

(** The order in which Python iterates over a set, which [', '.join] sees.
    The language leaves it open; it is some arrangement of the elements of
    the set. *)
Variable iter : gset string → list string.

(** The loop [for n in self.groupNames] of [__str__], entered with the
    counter [i]. *)
Fixpoint groupLines (values : list (gset string)) (i : nat)
    (names : list string) : outcome string :=
  match names with
  | [] => mret ""
  | n :: rest =>
      match n with
      | "" => Raised IndexError
      | String c _ =>
          if Ascii.eqb c "_"%char && negb showDetail
          then groupLines values i rest
          else
            match values !! i with
            | None => Raised IndexError
            | Some s =>
                let numValues := size s in
                let values_ := if (0 <? numValues)
                               then String.concat ", " (iter s) else "" in
                more ← groupLines values (S i) rest;
                mret ("  " +:+ n +:+ " (" +:+ pretty numValues +:+ "): "
                        +:+ values_ +:+ nl +:+ more)
            end
      end
  end.

(** The loop [for p in self.subPatterns] of [__str__]. *)
Definition subPatternLines (str : EventPattern → outcome string)
    : list EventPattern → outcome string :=
  fix loop subs :=
    match subs with
    | [] => mret ""
    | p :: rest => s ← str p; more ← loop rest; mret (s +:+ more)
    end.

Fixpoint __str__ (self : EventPattern) : outcome string :=
  let occurances := length (events self) in
  if (occurances =? 0) && negb showDetail
     && (length (subPatterns self) =? 0)
  then mret ""
  else
    let head := "*** " +:+ format_4d occurances +:+ "x " +:+ name self
                  +:+ " - " +:+ Re.pattern (regEx self) +:+ nl in
    groups ← groupLines (groupValues self) 0 (groupNames self);
    subs ← subPatternLines __str__ (subPatterns self);
    mret (head +:+ groups +:+ subs).

(** [printResults]: [print(p)] writes [str(p)] and a newline. *)
Fixpoint printResults (_patterns : list EventPattern) : outcome string :=
  match _patterns with
  | [] => mret ""
  | p :: rest => s ← __str__ p; more ← printResults rest; mret (s +:+ nl +:+ more)
  end.
End Report.

(** ** What the specification says the matcher does *)

(** Written after section 4.2 of the specification, steps 1 to 7, to be
    compared with [matchEvent] and [mainMatchEvent]: the siblings are visited
    in declaration order (1); the first whose regex matches the start of the
    message takes the event (2, 3); it hands the event to its children in the
    same way (4) and keeps it when it has no child or none of them matches
    (5, 6); when no sibling matches nobody takes it (7). *)
Definition spec_firstAccepting (accept : EventPattern → option ref)
    : list EventPattern → option ref :=
  fix visit siblings :=
    match siblings with
    | [] => None
    | p :: rest =>
        match accept p with
        | Some r => Some (0 :: r)
        | None => shift (visit rest)
        end
    end.

(** The node, given by its reference relative to [self], at which an event
    with message [msg] offered to [self] is recorded; [None] when the regex
    of [self] does not match. *)
Fixpoint spec_accept (msg : string) (self : EventPattern) : option ref :=
  match Re.match_ (regEx self) msg with
  | None => None
  | Some _ =>
      Some (default [] (spec_firstAccepting (spec_accept msg) (subPatterns self)))
  end.

(** The deepest matching node of the specification: the node of the forest
    at which the event is to be recorded, after the type filter. *)
Definition spec_deepest (typeFilter : option Z) (_patterns : list EventPattern)
    (event : Event.t) : option ref :=
  if filteredOut typeFilter event then None
  else spec_firstAccepting (spec_accept (Event.message event)) _patterns.

(** ** Well-formed patterns *)

(** What Python's [re] guarantees of a compiled pattern: [groupindex] is a
    dictionary, so its names are distinct; a group name is an identifier, so
    it is not empty; and the [groupdict()] of each of its matches has these
    names as keys, in this order. *)
Definition regex_ok (r : Re.Regex) : Prop :=
  NoDup (Re.groupindex r) ∧
  Forall (λ g, g ≠ "") (Re.groupindex r) ∧
  ∀ msg m, Re.match_ r msg = Some m → (Re.groupdict m).*1 = Re.groupindex r.

(** What [__init__] sets up and no method changes. *)
Definition self_ok (self : EventPattern) : Prop :=
  groupNames self = Re.groupindex (regEx self) ∧
  length (groupValues self) = length (groupNames self) ∧
  regex_ok (regEx self).

#[warnings="-register-all"]
Inductive pattern_ok : EventPattern → Prop :=
| pattern_ok_intro self :
    self_ok self → Forall pattern_ok (subPatterns self) → pattern_ok self.

(** The value [addEvent] puts into the set of a group. *)
Definition captured (v : option string) : string :=
  match v with None => "-None-" | Some s => s end.

(** The state of a well-formed pattern after [addEvent]. *)
Definition recordedValues (m : Re.Match) (values : list (gset string))
    : list (gset string) :=
  zip_with (λ kv s, {[captured kv.2]} ∪ s) (Re.groupdict m) values.

Definition recorded (event : Event.t) (self : EventPattern) : EventPattern :=
  match Re.match_ (regEx self) (Event.message event) with
  | None => self
  | Some m =>
      set_groupValues (set_events self (events self ++ [event]))
        (recordedValues m (groupValues self))
  end.

(** The forest after a mutation of the node an optional reference names. *)
Definition updateAt (f : EventPattern → EventPattern) (r : option ref)
    (_patterns : list EventPattern) : list EventPattern :=
  match r with
  | None => _patterns
  | Some r => updateForest f r _patterns
  end.

(** Two states of one pattern object with the same events, hence the same
    [matchCount], and the same value sets. *)
Definition sameState (a b : EventPattern) : Prop :=
  events a = events b ∧ groupValues a = groupValues b.

(** The siblings at a level of the forest: the roots for the empty
    reference, the children of the node referred to otherwise. *)
Definition siblingsAt (_patterns : list EventPattern) (q : ref)
    : option (list EventPattern) :=
  match q with
  | [] => Some _patterns
  | _ => subPatterns <$> derefForest _patterns q
  end.

(** The state of [self] after [matchEvent], in the specification's terms. *)
Definition routed (event : Event.t) (self : EventPattern) : EventPattern :=
  match spec_accept (Event.message event) self with
  | None => self
  | Some r => update (recorded event) r self
  end.

(** A node with id [parent] has a node with id [child] below it. *)
Definition descendantOf (_patterns : list EventPattern) (parent child : string)
    : Prop :=
  ∃ q n below c,
    derefForest _patterns q = Some n ∧ patternId n = parent ∧
    below ≠ [] ∧ deref n below = Some c ∧ patternId c = child.

(** The search of [addSubPattern] for the parent, without the append. *)
Definition findParent (_patterns : list EventPattern) (id : string)
    : option ref :=
  findAmong (λ p, findSubPatternWithId p id) id _patterns.

(** ** Compiled patterns and pattern files for the examples *)

(** A compiled pattern that is a choice between literal texts, tried in
    order at the start of the message, each with the substrings its named
    groups capture. *)
Fixpoint firstPrefix (alts : list (string * list (option string)))
    (msg : string) : option (list (option string)) :=
  match alts with
  | [] => None
  | (lit, caps) :: rest =>
      if String.prefix lit msg then Some caps else firstPrefix rest msg
  end.

Definition literals (src : string) (names : list string)
    (alts : list (string * list (option string))) : Re.Regex :=
  Re.mkRegex src names
    (λ msg, (λ caps, Re.mkMatch (zip names caps)) <$> firstPrefix alts msg).

Definition startupRegex : Re.Regex :=
  literals "Agentry Startup" [] [("Agentry Startup", [])].

Definition fooRegex : Re.Regex := literals "foo.*" [] [("foo", [])].

Definition fooBarRegex : Re.Regex := literals "foo bar" [] [("foo bar", [])].

Definition fooBarBazRegex : Re.Regex :=
  literals "foo bar baz" [] [("foo bar baz", [])].

Definition loginRegex : Re.Regex :=
  literals "(?P<_kind>Login) (?P<user>alice|bob)" ["_kind"; "user"]
    [("Login alice", [Some "Login"; Some "alice"]);
     ("Login bob", [Some "Login"; Some "bob"])].

Definition syncRegex : Re.Regex :=
  literals "(?P<op>Sync)( (?P<obj>users))?" ["op"; "obj"]
    [("Sync users", [Some "Sync"; Some "users"]);
     ("Sync", [Some "Sync"; None])].

Definition exampleRegexes : list Re.Regex :=
  [startupRegex; fooRegex; fooBarRegex; fooBarBazRegex; loginRegex; syncRegex].

(** [re.compile] on the patterns of the examples. *)
Definition exampleCompile (src : string) : option Re.Regex :=
  List.find (λ re, String.eqb src (Re.pattern re)) exampleRegexes.

(** The hierarchy of the specification's example, one level deeper. *)
Definition nestedRows : list Row :=
  [mkRow "A" "foo.*" ""; mkRow "B" "foo bar" "A"; mkRow "C" "foo bar baz" "B"].

(** Two children of one parent that match the same messages. *)
Definition siblingRows : list Row :=
  [mkRow "A" "foo.*" ""; mkRow "B" "foo bar" "A"; mkRow "C" "foo.*" "A"].

(** A child declared before its parent. *)
Definition forwardRows : list Row :=
  [mkRow "B" "foo bar" "A"; mkRow "A" "foo.*" ""].

Definition loginRows : list Row :=
  [mkRow "Login" "(?P<_kind>Login) (?P<user>alice|bob)" ""].

Definition logged (type : Z) (message : string) : Event.t :=
  Event.mk type "0" "2" "6480" message.

Definition loaded (rows : list Row) : list EventPattern :=
  match loadCsvFile exampleCompile [] rows with
  | Returned _patterns _ => _patterns
  | Raised _ => []
  end.

(** The pattern objects of the examples, as [__init__] sets them up. *)
Definition syncNode : EventPattern :=
  mkEventPattern "Sync" "Sync" syncRegex ["op"; "obj"] [∅; ∅] "" [] [].

Definition nodeB : EventPattern :=
  mkEventPattern "B" "B" fooBarRegex [] [] "A" [] [].

Definition nodeC : EventPattern :=
  mkEventPattern "C" "C" fooRegex [] [] "A" [] [].

(** ** Observations on the forest *)

(** The events recorded in a subtree: at the node and at all below it. *)
Fixpoint totalCount (self : EventPattern) : nat :=
  matchCount self + sum_list_with totalCount (subPatterns self).

Definition totalCountForest (_patterns : list EventPattern) : nat :=
  sum_list_with totalCount _patterns.

(** An event that passes the type filter and that the regex of some
    top-level pattern matches. *)
Definition reachesForest (typeFilter : option Z)
    (_patterns : list EventPattern) (event : Event.t) : bool :=
  negb (filteredOut typeFilter event)
  && existsb (λ p, bool_decide (is_Some (Re.match_ (regEx p)
                                           (Event.message event))))
       _patterns.

(** Two states of one pattern object with the same configuration: ids,
    regex, group names and number of children. *)
Definition sameIdentity (a b : EventPattern) : Prop :=
  patternId a = patternId b ∧ name a = name b ∧ regEx a = regEx b ∧
  groupNames a = groupNames b ∧ parentId a = parentId b ∧
  length (subPatterns a) = length (subPatterns b).


(** ** Properties of every node of a tree *)

(** [P] holds at a node and at every node below it. *)
#[warnings="-register-all"]
Inductive allNodes (P : EventPattern → Prop) : EventPattern → Prop :=
| allNodes_intro self :
    P self → Forall (allNodes P) (subPatterns self) → allNodes P self.

(** A pattern object as [__init__] leaves it: no event yet, one empty value
    set for each named group of its regex, and the name as id. *)
Definition asConstructed (self : EventPattern) : Prop :=
  events self = [] ∧
  groupNames self = Re.groupindex (regEx self) ∧
  groupValues self = (λ _, ∅) <$> groupNames self ∧
  patternId self = name self.

(** Every child in the tree names the node it hangs under as its parent. *)
#[warnings="-register-all"]
Inductive linked : EventPattern → Prop :=
| linked_intro self :
    Forall (λ c, parentId c = patternId self ∧ parentId c ≠ "")
      (subPatterns self) →
    Forall linked (subPatterns self) → linked self.


(** ** Lines of the report *)

(** The line [__str__] writes for the group name [n] when it reads the value
    set [s] for it. *)
Definition groupLine (iter : gset string → list string) (n : string)
    (s : gset string) : string :=
  "  " +:+ n +:+ " (" +:+ pretty (size s) +:+ "): "
  +:+ (if 0 <? size s then String.concat ", " (iter s) else "") +:+ nl.

(** [n[0] == '_' and not showDetail], for a name that has a first character. *)
Definition hiddenGroup (showDetail : bool) (n : string) : bool :=
  match n with
  | "" => false
  | String c _ => Ascii.eqb c "_"%char && negb showDetail
  end.

(** Lines one after the other. *)
Definition groupLinesOf (iter : gset string → list string)
    (shown : list (string * gset string)) : string :=
  foldr (λ ns rest, groupLine iter ns.1 ns.2 +:+ rest) "" shown.

(** The text of [n] empty prints. *)
Fixpoint emptyLines (n : nat) : string :=
  match n with 0 => "" | S n' => nl +:+ emptyLines n' end.


(** ** The command line *)

(** The module-level switches that [myMain] sets. *)
Module Globals.
(** What [start] and [end] hold: [None], [True] while the value is awaited,
    or the argument taken as the value. *)
Inductive bound := NotGiven | Awaited | Given (value : string).

Record t := mk {
  showUsers : bool;
  start : bound;
  end_ : bound;
  onlyFirst : bool;
  eventPatternFile : option string;
  showDetail : bool;
  typeFilter : option Z;
  debug : bool
}.

(** The values the module assigns when it is loaded. *)
Definition initial : t :=
  mk true NotGiven NotGiven false (Some "EventPatterns.csv") false None false.
End Globals.

(** [s.find(sub) >= 0] *)
Fixpoint found (sub s : string) : bool :=
  String.prefix sub s
  || match s with
     | "" => false
     | String _ s' => found sub s'
     end.

(** An element of [files]: an argument, or what [glob.glob] returned for an
    argument, appended as one element. *)
Definition FileArg : Type := string + list string.

(** The variables the loop over the arguments works on, and the lines it
    prints. *)
Record ArgState := mkArgState {
  globals : Globals.t;
  files : list FileArg;
  users : list string;
  printed : list string
}.

Section CommandLine.
(** [str.lower] and [glob.glob]. *)
Variable lower : string → string.
Variable glob : string → list string.

(** The body of the loop [for arg in argv[1:]] of [myMain]. *)
Definition argStep (st : ArgState) (arg : string) : ArgState :=
  let g := globals st in
  let out := if Globals.debug g then printed st ++ [arg] else printed st in
  let set g' := mkArgState g' (files st) (users st) out in
  match Globals.start g, Globals.end_ g with
  | Globals.Awaited, _ =>
      set (Globals.mk (Globals.showUsers g) (Globals.Given arg) (Globals.end_ g)
             (Globals.onlyFirst g) (Globals.eventPatternFile g)
             (Globals.showDetail g) (Globals.typeFilter g) (Globals.debug g))
  | _, Globals.Awaited =>
      set (Globals.mk (Globals.showUsers g) (Globals.start g) (Globals.Given arg)
             (Globals.onlyFirst g) (Globals.eventPatternFile g)
             (Globals.showDetail g) (Globals.typeFilter g) (Globals.debug g))
  | _, _ =>
      if String.eqb arg "-debug" then
        set (Globals.mk (Globals.showUsers g) (Globals.start g) (Globals.end_ g)
               (Globals.onlyFirst g) (Globals.eventPatternFile g)
               (Globals.showDetail g) (Globals.typeFilter g) true)
      else if String.eqb arg "-error0" then
        set (Globals.mk (Globals.showUsers g) (Globals.start g) (Globals.end_ g)
               (Globals.onlyFirst g) (Globals.eventPatternFile g)
               (Globals.showDetail g) (Some 0%Z) (Globals.debug g))
      else if String.eqb arg "-error1" then
        set (Globals.mk (Globals.showUsers g) (Globals.start g) (Globals.end_ g)
               (Globals.onlyFirst g) (Globals.eventPatternFile g)
               (Globals.showDetail g) (Some 1%Z) (Globals.debug g))
      else if String.eqb arg "-onlyFirst" then
        set (Globals.mk (Globals.showUsers g) (Globals.start g) (Globals.end_ g)
               true (Globals.eventPatternFile g)
               (Globals.showDetail g) (Globals.typeFilter g) (Globals.debug g))
      else if String.eqb arg "-showDetail" then
        set (Globals.mk (Globals.showUsers g) (Globals.start g) (Globals.end_ g)
               (Globals.onlyFirst g) (Globals.eventPatternFile g)
               true (Globals.typeFilter g) (Globals.debug g))
      else if String.eqb arg "-start" then
        set (Globals.mk (Globals.showUsers g) Globals.Awaited (Globals.end_ g)
               (Globals.onlyFirst g) (Globals.eventPatternFile g)
               (Globals.showDetail g) (Globals.typeFilter g) (Globals.debug g))
      else if String.eqb arg "-end" then
        set (Globals.mk (Globals.showUsers g) (Globals.start g) Globals.Awaited
               (Globals.onlyFirst g) (Globals.eventPatternFile g)
               (Globals.showDetail g) (Globals.typeFilter g) (Globals.debug g))
      else if found ".csv" (lower arg) then
        set (Globals.mk (Globals.showUsers g) (Globals.start g) (Globals.end_ g)
               (Globals.onlyFirst g) (Some (lower arg))
               (Globals.showDetail g) (Globals.typeFilter g) (Globals.debug g))
      else if negb (found "." arg) then
        mkArgState g (files st) (users st ++ [lower arg]) out
      else if negb (found "*" arg) then
        mkArgState g (files st ++ [inl arg]) (users st) out
      else
        mkArgState g (files st ++ [inr (glob arg)]) (users st) out
  end.

(** Where an element of [files] and an element of [users] can come from. *)
Definition fileFrom (args : list string) (f : FileArg) : Prop :=
  match f with
  | inl a => a ∈ args ∧ found "." a = true ∧ found "*" a = false
  | inr l => ∃ a, a ∈ args ∧ found "." a = true ∧ found "*" a = true ∧ l = glob a
  end.

Definition userFrom (args : list string) (u : string) : Prop :=
  ∃ a, a ∈ args ∧ found "." a = false ∧ u = lower a.

(** The loop over [argv[1:]], entered with empty [files] and [users]. *)
Definition parseArgs (g : Globals.t) (argv : list string) : ArgState :=
  foldl argStep (mkArgState g [] [] []) (drop 1 argv).

(** What [myMain] does after the loop: it returns without a run, or calls
    [mainLoop(files, users)].  The message it prints before returning and
    its debug print of [files] are left out. *)
Definition launch (st : ArgState) : option (list FileArg * list string) :=
  match Globals.eventPatternFile (globals st) with
  | None => None
  | Some _ =>
      if length (files st) <? 1
      then Some (files st ++ [inl "events.log"], users st)
      else Some (files st, users st)
  end.

(** [myMain(argv)]: the switches after the call and the call of [mainLoop]
    it ends with, if any.  The test [len(argv) < 0] at its head never
    holds. *)
Definition myMain (g : Globals.t) (argv : list string)
    : Globals.t * option (list FileArg * list string) :=
  if (Z.of_nat (length argv) <? 0)%Z then (g, None)
  else
    let st := parseArgs g argv in
    (globals st, launch st).
End CommandLine.


(** ** The loop of [mainLoop] over the log files *)

(** What ends the loop early: an exception out of the matcher, the
    [TypeError] of [open] for a file name that is no string, or the
    [OSError] of [open] for a file that cannot be opened. *)
Inductive RunExn := Matching (e : Exn) | TypeError | OSError.

Inductive run (A : Type) :=
| Finished (a : A)
| Aborted (e : RunExn).
Arguments Finished {A} a.
Arguments Aborted {A} e.

(** A match of the line grammar: [match.group(1)] to [match.group(6)]. *)
Record LineMatch := mkLineMatch {
  group1 : string;
  group2 : string;
  group3 : string;
  group4 : string;
  group5 : string;
  group6 : string
}.

(** The variables of [mainLoop]: the two counters, the class variable
    [_patterns], and the texts handed to [print] so far. *)
Record LoopState := mkLoopState {
  lines : nat;
  matches : nat;
  patterns : list EventPattern;
  stdout : list string
}.

Section MainLoop.
(** [line_regex().match], [int] ([None] when it raises [ValueError]),
    [str.strip], the lines of a file ([None] when [open] raises), and the
    text [str.format] gives for an element of [files]. *)
Variable line_regex_match : string → option LineMatch.
Variable int_ : string → option Z.
Variable strip : string → string.
Variable readlines : string → option (list string).
Variable format_file : FileArg → string.

(** The globals [typeFilter] and [debug]. *)
Variable typeFilter : option Z.
Variable debug : bool.

(** [Event(match)]; [None] when [int] raises [ValueError]. *)
Definition newEvent (m : LineMatch) : option Event.t :=
  match int_ (group2 m) with
  | None => None
  | Some type =>
      Some (Event.mk type (group3 m) (group4 m) (group5 m) (strip (group6 m)))
  end.

(** The body of the loop [for line in in_file]. *)
Definition lineStep (st : LoopState) (line : string) : run LoopState :=
  let lines' := lines st + 1 in
  match line_regex_match line with
  | None => Finished (mkLoopState lines' (matches st) (patterns st) (stdout st))
  | Some m =>
      let matches' := matches st + 1 in
      match newEvent m with
      | None =>
          Finished (mkLoopState lines' matches' (patterns st)
                      (stdout st ++ ["Matching line skipped: " +:+ line]))
      | Some e =>
          match mainMatchEvent typeFilter (patterns st) e with
          | Raised exn => Aborted (Matching exn)
          | Returned (_patterns, _) _ =>
              Finished (mkLoopState lines' matches' _patterns (stdout st))
          end
      end
  end.

Fixpoint lineLoop (st : LoopState) (in_file : list string) : run LoopState :=
  match in_file with
  | [] => Finished st
  | line :: rest =>
      match lineStep st line with
      | Aborted e => Aborted e
      | Finished st' => lineLoop st' rest
      end
  end.

(** The body of the loop [for fileName in files]. *)
Definition fileStep (st : LoopState) (fileName : FileArg) : run LoopState :=
  let st :=
    if debug
    then mkLoopState (lines st) (matches st) (patterns st)
           (stdout st ++ ["********* Processing file " +:+ format_file fileName
                          +:+ nl])
    else st in
  match fileName with
  | inr _ => Aborted TypeError
  | inl path =>
      match readlines path with
      | None => Aborted OSError
      | Some in_file => lineLoop st in_file
      end
  end.

Fixpoint fileLoop (st : LoopState) (files : list FileArg) : run LoopState :=
  match files with
  | [] => Finished st
  | fileName :: rest =>
      match fileStep st fileName with
      | Aborted e => Aborted e
      | Finished st' => fileLoop st' rest
      end
  end.

(** The event a line stands for, if any. *)
Definition eventOfLine (line : string) : option Event.t :=
  line_regex_match line ≫= newEvent.

(** All lines of the files, in the order the loop reads them; [None] when
    an element is no file name or a file cannot be opened. *)
Fixpoint allLines (files : list FileArg) : option (list string) :=
  match files with
  | [] => Some []
  | inr _ :: _ => None
  | inl path :: rest =>
      in_file ← readlines path; more ← allLines rest; Some (in_file ++ more)
  end.
End MainLoop.


(** ** Stand-ins for the examples of the command line and of the file loop *)

(** [str.lower] on texts of ASCII letters. *)
Definition lowerChar (c : ascii) : ascii :=
  let n := nat_of_ascii c in
  if (65 <=? n) && (n <=? 90) then ascii_of_nat (n + 32) else c.

Fixpoint asciiLower (s : string) : string :=
  match s with
  | "" => ""
  | String c s' => String (lowerChar c) (asciiLower s')
  end.

(** [glob.glob] in a directory that holds [logs/a.log] and [logs/b.log]. *)
Definition exampleGlob (pattern : string) : list string :=
  if String.eqb pattern "logs/*.log" then ["logs/a.log"; "logs/b.log"] else [].

(** A line of the log as the file yields it, with its line end. *)
Definition exampleLine : string :=
  "02/04/2015 12:33:35, 0, 0, 2, Thr 6480, foo bar baz" +:+ nl.

(** The line grammar on the lines of the example. *)
Definition exampleLineMatch (line : string) : option LineMatch :=
  if String.eqb line exampleLine
  then Some (mkLineMatch "02/04/2015 12:33:35" "0" "0" "2" "6480" "foo bar baz")
  else None.

(** [int] on the type codes of the example. *)
Definition exampleInt (s : string) : option Z :=
  if String.eqb s "0" then Some 0%Z
  else if String.eqb s "1" then Some 1%Z
  else None.

(** [str.strip] on the messages of the example, which have no white space
    at their ends. *)
Definition exampleStrip (s : string) : string := s.

(** The one log file of the example. *)
Definition exampleReadlines (path : string) : option (list string) :=
  if String.eqb path "events.log"
  then Some [exampleLine; "not a line of the log" +:+ nl; exampleLine]
  else None.

(** [str.format] on an element of [files]: a name as it is, a list as its
    [repr], for names without quotes and backslashes. *)
Definition exampleFormat (f : FileArg) : string :=
  match f with
  | inl path => path
  | inr paths =>
      "[" +:+ String.concat ", " ((λ path, "'" +:+ path +:+ "'") <$> paths)
      +:+ "]"
  end.

(** A pattern file with a single root. *)
Definition syncRows : list Row :=
  [mkRow "Sync" "(?P<op>Sync)( (?P<obj>users))?" ""].

(** A pattern file with the id D three times: a root after the root
    Startup, a child of that root, and one more root. *)
Definition duplicateRows : list Row :=
  [mkRow "Startup" "Agentry Startup" ""; mkRow "D" "foo.*" "";
   mkRow "D" "foo bar" "D"; mkRow "D" "foo bar baz" ""].

(** The deepest pattern of [nestedRows], as [__init__] sets it up. *)
Definition nestedC : EventPattern :=
  mkEventPattern "C" "C" fooBarBazRegex [] [] "B" [] [].

(** * Proofs *)

(** ** Induction over the tree of patterns *)

Lemma EventPattern_tree_ind (P : EventPattern → Prop) :
  (∀ self, Forall P (subPatterns self) → P self) → ∀ self, P self.
Proof.
  intros step. fix IH 1. intros self. apply step.
  destruct self as [? ? ? ? ? ? ? subs]. simpl.
  induction subs as [|p subs IHsubs]; constructor; [apply IH | exact IHsubs].
Qed.

Lemma set_subPatterns_id self : set_subPatterns self (subPatterns self) = self.
Proof. by destruct self. Qed.

Lemma pattern_ok_self self : pattern_ok self → self_ok self.
Proof. by inversion 1. Qed.

Lemma pattern_ok_subs self : pattern_ok self → Forall pattern_ok (subPatterns self).
Proof. by inversion 1. Qed.

(** ** The result type *)

Lemma mret_Returned {A} (a : A) : mret a = Returned a [].
Proof. done. Qed.

Lemma bind_ret {A B} (a : A) (f : A → outcome B) : (Returned a [] ≫= f) = f a.
Proof. unfold mbind, outcome_bind. by destruct (f a). Qed.

Lemma bind_Returned {A B} (a : A) l (f : A → outcome B) b l' :
  f a = Returned b l' → (Returned a l ≫= f) = Returned b (l ++ l').
Proof. intros Hf. unfold mbind, outcome_bind. by rewrite Hf. Qed.

Lemma bind_returns {A B} (m : outcome A) (f : A → outcome B) a l b l' :
  m = Returned a l → f a = Returned b l' → (m ≫= f) = Returned b (l ++ l').
Proof. intros ->. apply bind_Returned. Qed.

(** ** addEvent on a well-formed pattern *)

Lemma index_lookup names i x :
  NoDup names → names !! i = Some x → index names x = Returned i [].
Proof.
  intros Hnd. revert i. induction Hnd as [|y names Hy Hnd IH]; intros i Hi.
  - by rewrite lookup_nil in Hi.
  - cbn [index]. destruct i as [|i].
    + injection Hi as ->. by rewrite String.eqb_refl.
    + destruct (String.eqb_spec y x) as [->|_].
      * destruct Hy. by eapply list_elem_of_lookup_2.
      * by rewrite (IH i Hi), bind_ret.
Qed.

Lemma addGroups_zip names values gd pre :
  NoDup names → names = pre ++ gd.*1 → length values = length names →
  addGroups names values gd
  = Returned (take (length pre) values
              ++ zip_with (λ kv s, {[captured kv.2]} ∪ s) gd
                   (drop (length pre) values)) [].
Proof.
  intros Hnd. revert values pre.
  induction gd as [|[ng v] gd IH]; intros values pre Hnames Hlen;
    cbn [addGroups].
  - rewrite Hnames in Hlen. simpl in Hlen. rewrite app_nil_r in Hlen.
    simpl. by rewrite app_nil_r, take_ge by lia.
  - assert (names !! length pre = Some ng) as Hng.
    { rewrite Hnames, fmap_cons. by apply list_lookup_middle. }
    rewrite (index_lookup _ _ _ Hnd Hng), bind_ret.
    destruct (lookup_lt_is_Some_2 values (length pre)) as [s Hs].
    { rewrite Hlen, Hnames, length_app. simpl. lia. }
    rewrite Hs. fold (captured v).
    rewrite (IH (<[length pre := {[captured v]} ∪ s]> values) (pre ++ [ng])).
    + rewrite length_app. simpl. rewrite Nat.add_1_r.
      rewrite (drop_S values s (length pre) Hs). simpl.
      rewrite drop_insert_lt by lia.
      erewrite take_S_r by (by apply list_lookup_insert_eq, lookup_lt_Some with s).
      rewrite take_insert_ge by lia. by rewrite <- app_assoc.
    + rewrite Hnames. by rewrite <- app_assoc.
    + by rewrite length_insert.
Qed.

Lemma addEvent_recorded self event m :
  self_ok self → Re.match_ (regEx self) (Event.message event) = Some m →
  addEvent self event m = Returned (recorded event self) [].
Proof.
  intros (Hnames & Hlen & Hnd & _ & Hkeys) Hm. unfold addEvent, recorded.
  rewrite Hm. simpl.
  rewrite (addGroups_zip _ _ _ []); simpl; try done.
  - by rewrite Hnames.
  - by rewrite Hnames, (Hkeys _ _ Hm).
Qed.

(** ** The matcher follows the specification's route *)

Lemma matchSubPatterns_cons f p rest :
  matchSubPatterns f (p :: rest)
  = '(p', r) ← f p;
    match r with
    | Some _ => mret (p' :: rest, Some 0)
    | None => '(rest', k) ← matchSubPatterns f rest; mret (p' :: rest', S <$> k)
    end.
Proof. done. Qed.

Lemma matchEvent_unfold self event :
  matchEvent self event
  = m ← applyRegex self (Event.message event);
    match m with
    | None => mret (self, None)
    | Some mt =>
        '(subs, k) ← (if 0 <? length (subPatterns self)
                      then matchSubPatterns (λ p, matchEvent p event)
                             (subPatterns self)
                      else mret (subPatterns self, None));
        match k with
        | Some i => mret (set_subPatterns self subs, Some [i])
        | None =>
            self' ← addEvent (set_subPatterns self subs) event mt;
            mret (self', Some [])
        end
    end.
Proof. by destruct self. Qed.

Lemma updateAt_shift f o p l :
  updateAt f (shift o) (p :: l) = p :: updateAt f o l.
Proof. by destruct o as [[|i r]|]. Qed.

Lemma head_shift (o : option ref) : (shift o ≫= head) = S <$> (o ≫= head).
Proof. by destruct o as [[|i r]|]. Qed.

Lemma matchSubPatterns_route event subs :
  Forall (λ p, ∃ log, matchEvent p event
                 = Returned (routed event p,
                             take 1 <$> spec_accept (Event.message event) p) log)
    subs →
  let o := spec_firstAccepting (spec_accept (Event.message event)) subs in
  ∃ log, matchSubPatterns (λ p, matchEvent p event) subs
         = Returned (updateAt (recorded event) o subs, o ≫= head) log.
Proof.
  induction 1 as [|p rest [log Hp] _ [log' IH]]; intros o.
  - by exists [].
  - subst o. rewrite matchSubPatterns_cons. cbv beta. rewrite Hp.
    unfold routed. cbn [spec_firstAccepting].
    destruct (spec_accept (Event.message event) p) as [r|].
    + eexists. by apply bind_Returned.
    + rewrite updateAt_shift, head_shift. eexists. apply bind_Returned.
      cbv beta iota. eapply bind_returns; [exact IH | done].
Qed.

Lemma matchEvent_route event self :
  pattern_ok self →
  ∃ log, matchEvent self event
         = Returned (routed event self,
                     take 1 <$> spec_accept (Event.message event) self) log.
Proof.
  induction self as [self IH] using EventPattern_tree_ind. intros Hok.
  pose proof (pattern_ok_self _ Hok) as Hself.
  assert (Forall (λ p, ∃ log, matchEvent p event
                   = Returned (routed event p,
                        take 1 <$> spec_accept (Event.message event) p) log)
            (subPatterns self)) as Hsubs.
  { apply Forall_forall. intros p Hp.
    eapply (proj1 (Forall_forall _ _) IH); [done|].
    by eapply (proj1 (Forall_forall _ _) (pattern_ok_subs _ Hok)). }
  apply matchSubPatterns_route in Hsubs as [log Hloop]. cbv zeta in Hloop.
  rewrite matchEvent_unfold.
  assert ((if 0 <? length (subPatterns self)
           then matchSubPatterns (λ p, matchEvent p event) (subPatterns self)
           else mret (subPatterns self, None))
          = matchSubPatterns (λ p, matchEvent p event) (subPatterns self))
    as -> by (by destruct (subPatterns self)).
  rewrite Hloop. unfold routed, applyRegex.
  destruct self as [pid nm re gn gv par ev subs]. cbn [spec_accept regEx subPatterns] in *.
  destruct (Re.match_ re (Event.message event)) as [mt|] eqn:Hm.
  - destruct (spec_firstAccepting _ subs) as [[|i r]|] eqn:Hfirst.
    + eexists. apply bind_Returned. cbv beta iota. eapply bind_Returned.
      cbv beta iota. cbn [mbind option_bind head].
      eapply bind_returns; [|done].
      cbn [updateAt updateForest]. unfold set_subPatterns. cbn.
      rewrite addEvent_recorded; [done..|]. done.
    + eexists. apply bind_Returned. cbv beta iota. by eapply bind_Returned.
    + eexists. apply bind_Returned. cbv beta iota. eapply bind_Returned.
      cbv beta iota. cbn [mbind option_bind].
      eapply bind_returns; [|done].
      cbn [updateAt]. unfold set_subPatterns. cbn.
      by rewrite addEvent_recorded.
  - eexists. by apply bind_Returned.
Qed.

Lemma matchPatterns_route event pats :
  Forall pattern_ok pats →
  let o := spec_firstAccepting (spec_accept (Event.message event)) pats in
  ∃ log, matchPatterns event pats
         = Returned (updateAt (recorded event) o pats, take 2 <$> o) log.
Proof.
  induction 1 as [|p rest Hok _ [log' IH]]; intros o.
  - by exists [].
  - subst o. cbn [matchPatterns spec_firstAccepting]. unfold applyRegex.
    destruct (matchEvent_route event p Hok) as [log Hp].
    pose proof (pattern_ok_self _ Hok) as Hself.
    unfold routed in Hp.
    destruct p as [pid nm re gn gv par ev subs].
    cbn [spec_accept regEx subPatterns] in *.
    destruct (Re.match_ re (Event.message event)) as [mt|] eqn:Hm.
    + destruct subs as [|c subs].
      * eexists. apply bind_Returned. cbv beta iota. cbn [length Nat.ltb Nat.leb].
        rewrite mret_Returned, bind_ret. cbv beta iota.
        eapply bind_returns; [|done].
        by rewrite addEvent_recorded.
      * eexists. apply bind_Returned. cbv beta iota. cbn [length Nat.ltb Nat.leb].
        rewrite Hp. by eapply bind_Returned.
    + rewrite updateAt_shift. eexists. apply bind_Returned. cbv beta iota.
      eapply bind_returns; [exact IH|].
      cbv beta iota.
      by destruct (spec_firstAccepting _ rest) as [[|i [|j r]]|].
Qed.

Lemma mainMatchEvent_route typeFilter _patterns event :
  Forall pattern_ok _patterns →
  let o := spec_deepest typeFilter _patterns event in
  ∃ log, mainMatchEvent typeFilter _patterns event
         = Returned (updateAt (recorded event) o _patterns, take 2 <$> o) log.
Proof.
  intros Hok o. subst o. unfold mainMatchEvent, spec_deepest.
  destruct (filteredOut typeFilter event); [by exists []|].
  by apply matchPatterns_route.
Qed.

(** ** First match wins among siblings *)

Lemma spec_firstAccepting_Some accept siblings r :
  spec_firstAccepting accept siblings = Some r ↔
  ∃ i p r', r = i :: r' ∧ siblings !! i = Some p ∧ accept p = Some r' ∧
            ∀ j p', j < i → siblings !! j = Some p' → accept p' = None.
Proof.
  revert r. induction siblings as [|p rest IH]; intros r; cbn [spec_firstAccepting].
  - split; [done|]. by intros (i & p & r' & _ & Hi & _).
  - destruct (accept p) as [r0|] eqn:Hp.
    + split.
      * intros [= <-]. exists 0, p, r0. repeat split; [done|]. lia.
      * intros (i & p' & r' & -> & Hi & Hacc & Hfirst). destruct i as [|i].
        -- injection Hi as <-. congruence.
        -- specialize (Hfirst 0 p ltac:(lia) eq_refl). congruence.
    + split.
      * destruct (spec_firstAccepting accept rest) as [r1|] eqn:Hrest; [|done].
        destruct (proj1 (IH r1) eq_refl) as (i & p' & r' & -> & Hi & Hacc & Hfirst).
        intros [= <-]. exists (S i), p', r'. repeat split; [done..|].
        intros [|j] q Hj Hq; [by injection Hq as <-|].
        apply (Hfirst j); [lia|done].
      * intros (i & p' & r' & -> & Hi & Hacc & Hfirst). destruct i as [|i].
        -- injection Hi as <-. congruence.
        -- rewrite (proj2 (IH (i :: r'))); [done|].
           exists i, p', r'. repeat split; [done..|].
           intros j q Hj Hq. apply (Hfirst (S j)); [lia|done].
Qed.

Lemma spec_firstAccepting_None accept siblings :
  spec_firstAccepting accept siblings = None ↔
  Forall (λ p, accept p = None) siblings.
Proof.
  induction siblings as [|p rest IH]; cbn [spec_firstAccepting].
  - split; [constructor|done].
  - rewrite Forall_cons. destruct (accept p) as [r0|].
    + split; [done|]. by intros [? _].
    + destruct (spec_firstAccepting accept rest).
      * split; [done|]. intros [_ Hrest]. by apply IH in Hrest.
      * split; [|done]. intros _. split; [done|]. by apply IH.
Qed.

Lemma spec_accept_unfold msg self :
  spec_accept msg self
  = match Re.match_ (regEx self) msg with
    | None => None
    | Some _ =>
        Some (default [] (spec_firstAccepting (spec_accept msg) (subPatterns self)))
    end.
Proof. by destruct self. Qed.

Lemma spec_accept_is_Some msg self :
  is_Some (spec_accept msg self) ↔ is_Some (Re.match_ (regEx self) msg).
Proof.
  rewrite spec_accept_unfold. destruct (Re.match_ _ _); split; eauto.
  - by intros [? ?].
  - by intros [? ?].
Qed.

(** A route that passes through the node at [q] continues from there as the
    route of that node. *)
Lemma spec_accept_app msg self q t :
  spec_accept msg self = Some (q ++ t) →
  ∃ n, deref self q = Some n ∧ spec_accept msg n = Some t.
Proof.
  revert self. induction q as [|i q IH]; intros self Hroute.
  - by exists self.
  - rewrite spec_accept_unfold in Hroute.
    destruct (Re.match_ _ _); [|done]. injection Hroute as Hroute.
    destruct (spec_firstAccepting _ _) as [r|] eqn:Hfirst; [|done].
    simpl in Hroute. subst r.
    apply spec_firstAccepting_Some in Hfirst
      as (i' & p & r' & [= <- <-] & Hi & Hacc & _).
    cbn [deref]. rewrite Hi. by apply IH.
Qed.

(** The node at the end of the route exists and matches the message, and
    none of its children does: it is the deepest node on the way. *)
Lemma spec_accept_deepest msg self r :
  spec_accept msg self = Some r →
  ∃ n, deref self r = Some n ∧ is_Some (Re.match_ (regEx n) msg) ∧
       Forall (λ c, Re.match_ (regEx c) msg = None) (subPatterns n).
Proof.
  intros Hroute.
  destruct (spec_accept_app msg self r []) as (n & Hn & Hacc).
  { by rewrite app_nil_r. }
  exists n. split; [done|].
  split; [apply spec_accept_is_Some; eauto|].
  rewrite spec_accept_unfold in Hacc.
  destruct (Re.match_ (regEx n) msg); [|done].
  destruct (spec_firstAccepting _ _) as [r'|] eqn:Hfirst.
  - apply spec_firstAccepting_Some in Hfirst as (? & ? & ? & -> & _). done.
  - apply spec_firstAccepting_None in Hfirst.
    eapply Forall_impl; [exact Hfirst|]. intros c Hc. simpl in Hc.
    destruct (Re.match_ (regEx c) msg) eqn:Hm; [|done].
    destruct (proj2 (spec_accept_is_Some msg c)) as [? ?]; [by rewrite Hm|].
    congruence.
Qed.

Lemma spec_deepest_Some typeFilter _patterns event r :
  spec_deepest typeFilter _patterns event = Some r →
  filteredOut typeFilter event = false ∧
  ∃ i p r', r = i :: r' ∧ _patterns !! i = Some p ∧
            spec_accept (Event.message event) p = Some r'.
Proof.
  unfold spec_deepest. destruct (filteredOut _ _); [done|].
  intros (i & p & r' & ? & ? & ? & _)%spec_firstAccepting_Some. eauto 8.
Qed.

Lemma spec_deepest_deref typeFilter _patterns event r :
  spec_deepest typeFilter _patterns event = Some r →
  ∃ n, derefForest _patterns r = Some n ∧
       is_Some (Re.match_ (regEx n) (Event.message event)) ∧
       Forall (λ c, Re.match_ (regEx c) (Event.message event) = None)
         (subPatterns n).
Proof.
  intros (_ & i & p & r' & -> & Hi & Hacc)%spec_deepest_Some.
  cbn [derefForest]. rewrite Hi. by apply spec_accept_deepest.
Qed.

(** ** What a mutation behind a reference leaves alone *)

Lemma sameState_refl a : sameState a a.
Proof. done. Qed.

Lemma sameState_trans a b c : sameState a b → sameState b c → sameState a c.
Proof. intros [? ?] [? ?]. split; congruence. Qed.

Lemma deref_update_same f r self n :
  deref self r = Some n → deref (update f r self) r = Some (f n).
Proof.
  revert self. induction r as [|i r IH]; intros self; cbn [deref update].
  - by intros [= ->].
  - destruct self as [? ? ? ? ? ? ? subs]. cbn [subPatterns set_subPatterns].
    rewrite list_lookup_alter_eq. destruct (subs !! i) as [p|]; [|done].
    apply IH.
Qed.

Lemma deref_update_other f r q self n :
  (∀ x, subPatterns (f x) = subPatterns x) →
  q ≠ r → deref self q = Some n →
  ∃ n', deref (update f r self) q = Some n' ∧ sameState n n'.
Proof.
  intros Hf. revert q self. induction r as [|i r IH]; intros q self Hne Hq.
  - destruct q as [|j q]; [done|]. cbn [deref update] in *.
    rewrite Hf. exists n. by split.
  - destruct q as [|j q]; cbn [deref update] in *.
    + injection Hq as <-. eexists. split; [done|]. by destruct self.
    + destruct self as [? ? ? ? ? ? ? subs]. cbn [subPatterns set_subPatterns] in *.
      destruct (decide (i = j)) as [->|Hij].
      * rewrite list_lookup_alter_eq. destruct (subs !! j) as [p|]; [|done].
        apply IH; [congruence|done].
      * rewrite list_lookup_alter_ne by done. exists n.
        split; [done|apply sameState_refl].
Qed.

Lemma derefForest_update_same f r _patterns n :
  derefForest _patterns r = Some n →
  derefForest (updateForest f r _patterns) r = Some (f n).
Proof.
  destruct r as [|i r]; [done|]. cbn [derefForest updateForest].
  rewrite list_lookup_alter_eq. destruct (_patterns !! i) as [p|]; [|done].
  apply deref_update_same.
Qed.

Lemma derefForest_update_other f r q _patterns n :
  (∀ x, subPatterns (f x) = subPatterns x) →
  q ≠ r → derefForest _patterns q = Some n →
  ∃ n', derefForest (updateForest f r _patterns) q = Some n' ∧ sameState n n'.
Proof.
  intros Hf Hne Hq. destruct r as [|i r].
  { exists n. split; [done|apply sameState_refl]. }
  destruct q as [|j q]; [done|]. cbn [derefForest updateForest] in *.
  destruct (decide (i = j)) as [->|Hij].
  - rewrite list_lookup_alter_eq. destruct (_patterns !! j) as [p|]; [|done].
    apply deref_update_other; [done|congruence|done].
  - rewrite list_lookup_alter_ne by done. exists n.
    split; [done|apply sameState_refl].
Qed.

(** ** What recording an event keeps *)

Lemma recorded_subPatterns event x :
  subPatterns (recorded event x) = subPatterns x.
Proof. unfold recorded. by destruct (Re.match_ _ _), x. Qed.

Lemma recorded_regEx event x : regEx (recorded event x) = regEx x.
Proof. unfold recorded. by destruct (Re.match_ _ _), x. Qed.

Lemma recorded_groupNames event x : groupNames (recorded event x) = groupNames x.
Proof. unfold recorded. by destruct (Re.match_ _ _), x. Qed.

Lemma recorded_events event x :
  is_Some (Re.match_ (regEx x) (Event.message event)) →
  events (recorded event x) = events x ++ [event].
Proof. unfold recorded. intros [m ->]. by destruct x. Qed.

Lemma recorded_matchCount event x :
  is_Some (Re.match_ (regEx x) (Event.message event)) →
  matchCount (recorded event x) = S (matchCount x).
Proof.
  intros Hm. unfold matchCount. rewrite recorded_events by done.
  rewrite length_app. simpl. lia.
Qed.

Lemma recorded_self_ok event x : self_ok x → self_ok (recorded event x).
Proof.
  intros (Hnames & Hlen & Hre). unfold self_ok.
  rewrite recorded_regEx, recorded_groupNames.
  split; [done|]. split; [|done].
  unfold recorded. destruct (Re.match_ _ _) as [m|] eqn:Hm; [|done].
  destruct Hre as (_ & _ & Hkeys). specialize (Hkeys _ _ Hm).
  destruct x. cbn [groupValues set_groupValues set_events regEx groupNames] in *.
  unfold recordedValues. rewrite length_zip_with.
  rewrite <- (length_fmap fst (Re.groupdict m)), Hkeys, <- Hnames. lia.
Qed.

Lemma update_pattern_ok event r self :
  pattern_ok self → pattern_ok (update (recorded event) r self).
Proof.
  revert self. induction r as [|i r IH]; intros self Hok; cbn [update].
  - constructor.
    + by apply recorded_self_ok, pattern_ok_self.
    + rewrite recorded_subPatterns. by apply pattern_ok_subs.
  - constructor.
    + pose proof (pattern_ok_self _ Hok). by destruct self.
    + destruct self. cbn [subPatterns set_subPatterns].
      apply Forall_alter; [by apply (pattern_ok_subs _ Hok)|].
      intros p _ Hp. by apply IH.
Qed.

Lemma updateAt_pattern_ok event o _patterns :
  Forall pattern_ok _patterns →
  Forall pattern_ok (updateAt (recorded event) o _patterns).
Proof.
  intros Hok. destruct o as [[|i r]|]; cbn [updateAt updateForest]; try done.
  apply Forall_alter; [done|]. intros p _ Hp. by apply update_pattern_ok.
Qed.

Lemma spec_firstAccepting_alter accept g i siblings :
  (∀ x, accept (g x) = accept x) →
  spec_firstAccepting accept (alter g i siblings)
  = spec_firstAccepting accept siblings.
Proof.
  intros Hg. revert i. induction siblings as [|p rest IH]; intros i; [done|].
  destruct i as [|i]; cbn [alter list_alter spec_firstAccepting].
  - by rewrite Hg.
  - by rewrite IH.
Qed.

(** Recording changes neither a regex nor the shape of the tree, so the
    route of every later event stays what it was. *)
Lemma spec_accept_update msg event r self :
  spec_accept msg (update (recorded event) r self) = spec_accept msg self.
Proof.
  revert self. induction r as [|i r IH]; intros self; cbn [update].
  - rewrite !(spec_accept_unfold msg).
    by rewrite recorded_regEx, recorded_subPatterns.
  - rewrite !(spec_accept_unfold msg). destruct self.
    cbn [regEx subPatterns set_subPatterns].
    by rewrite spec_firstAccepting_alter.
Qed.

Lemma spec_deepest_updateAt typeFilter event' event o _patterns :
  spec_deepest typeFilter (updateAt (recorded event) o _patterns) event'
  = spec_deepest typeFilter _patterns event'.
Proof.
  unfold spec_deepest. destruct (filteredOut _ _); [done|].
  destruct o as [[|i r]|]; cbn [updateAt updateForest]; try done.
  apply spec_firstAccepting_alter. intros x. apply spec_accept_update.
Qed.

(** ** One event *)

(** What [mainMatchEvent] does to the forest, node by node. *)
Lemma mainMatchEvent_step typeFilter _patterns event :
  Forall pattern_ok _patterns →
  ∃ log,
    let o := spec_deepest typeFilter _patterns event in
    let _patterns' := updateAt (recorded event) o _patterns in
    mainMatchEvent typeFilter _patterns event
      = Returned (_patterns', take 2 <$> o) log ∧
    ∀ q n, derefForest _patterns q = Some n →
      ∃ n', derefForest _patterns' q = Some n' ∧
            (o = Some q → n' = recorded event n ∧
                          matchCount n' = S (matchCount n)) ∧
            (o ≠ Some q → sameState n n').
Proof.
  intros Hok. destruct (mainMatchEvent_route typeFilter _ event Hok) as [log Hrun].
  exists log. cbv zeta in *. split; [done|]. intros q n Hq.
  destruct (spec_deepest typeFilter _patterns event) as [r|] eqn:Hr;
    cbn [updateAt].
  - destruct (decide (q = r)) as [->|Hne].
    + exists (recorded event n). split; [by apply derefForest_update_same|].
      split; [|done]. intros _. split; [done|].
      apply recorded_matchCount.
      apply spec_deepest_deref in Hr as (n0 & Hn0 & Hm & _). congruence.
    + destruct (derefForest_update_other (recorded event) r q _patterns n)
        as (n' & Hn' & Hsame); [apply recorded_subPatterns|done..|].
      exists n'. split; [done|]. split; [congruence|done].
  - exists n. split; [done|]. split; [done|]. intros _. apply sameState_refl.
Qed.

Lemma sameState_matchCount a b : sameState a b → matchCount b = matchCount a.
Proof. intros [Hev _]. unfold matchCount. by rewrite Hev. Qed.

(** ** A stream of events *)

Lemma mainLoop_counts typeFilter base parsed :
  ∀ _patterns,
    Forall pattern_ok _patterns →
    (∀ e, spec_deepest typeFilter _patterns e = spec_deepest typeFilter base e) →
    ∃ _patterns' log,
      mainLoop typeFilter _patterns parsed = Returned _patterns' log ∧
      ∀ q n, derefForest _patterns q = Some n →
        ∃ n', derefForest _patterns' q = Some n' ∧
              matchCount n'
              = matchCount n
                + length (filter (λ e, spec_deepest typeFilter base e = Some q)
                            parsed).
Proof.
  induction parsed as [|event parsed IH]; intros _patterns Hok Hbase.
  - exists _patterns, []. split; [done|]. intros q n Hq. exists n.
    split; [done|]. simpl. lia.
  - destruct (mainMatchEvent_step typeFilter _patterns event Hok)
      as (log & Hrun & Hstep). cbv zeta in *.
    destruct (IH (updateAt (recorded event)
                    (spec_deepest typeFilter _patterns event) _patterns))
      as (final & log' & Hloop & Hcount).
    { by apply updateAt_pattern_ok. }
    { intros e. by rewrite spec_deepest_updateAt. }
    exists final. eexists. split.
    { cbn [mainLoop]. eapply bind_returns; [exact Hrun|exact Hloop]. }
    intros q n Hq.
    destruct (Hstep q n Hq) as (n1 & Hn1 & Hhit & Hmiss).
    destruct (Hcount q n1 Hn1) as (n' & Hn' & Hn'count).
    exists n'. split; [done|]. rewrite Hn'count, filter_cons.
    rewrite <- Hbase.
    destruct (decide (spec_deepest typeFilter _patterns event = Some q))
      as [Heq|Hne].
    + destruct (Hhit Heq) as [_ ->]. simpl. lia.
    + rewrite (sameState_matchCount _ _ (Hmiss Hne)). lia.
Qed.

(** C1: after a stream of events has gone through the forest, the matchCount
    of every node has grown by the number of events of the stream whose
    deepest matching node it is.  An event is counted where it is recorded
    and nowhere else: one event adds one to the count of its deepest matching
    node and nothing to any other node, so nothing to an ancestor of the node
    that recorded it. *)
Theorem matchCount_counts_deepest typeFilter _patterns :
  Forall pattern_ok _patterns →
  (∀ parsed, ∃ _patterns' log,
     mainLoop typeFilter _patterns parsed = Returned _patterns' log ∧
     ∀ q n, derefForest _patterns q = Some n →
       ∃ n', derefForest _patterns' q = Some n' ∧
             matchCount n'
             = matchCount n
               + length (filter (λ e, spec_deepest typeFilter _patterns e = Some q)
                           parsed)) ∧
  (∀ event, ∃ _patterns' r log,
     mainMatchEvent typeFilter _patterns event = Returned (_patterns', r) log ∧
     (∀ q n, derefForest _patterns q = Some n →
        ∃ n', derefForest _patterns' q = Some n' ∧
              matchCount n'
              = matchCount n
                + (if decide (spec_deepest typeFilter _patterns event = Some q)
                   then 1 else 0)) ∧
     (∀ ancestor below n,
        spec_deepest typeFilter _patterns event = Some (ancestor ++ below) →
        below ≠ [] → derefForest _patterns ancestor = Some n →
        ∃ n', derefForest _patterns' ancestor = Some n' ∧
              matchCount n' = matchCount n)).
Proof.
  intros Hok. split.
  - intros parsed. by apply mainLoop_counts.
  - intros event.
    destruct (mainMatchEvent_step typeFilter _patterns event Hok)
      as (log & Hrun & Hstep). cbv zeta in *.
    eexists _, _, log. split; [exact Hrun|]. split.
    + intros q n Hq. destruct (Hstep q n Hq) as (n' & Hn' & Hhit & Hmiss).
      exists n'. split; [done|]. case_decide as Hdec.
      * destruct (Hhit Hdec) as [_ ->]. lia.
      * rewrite (sameState_matchCount _ _ (Hmiss Hdec)). lia.
    + intros ancestor below n Hroute Hbelow Hq.
      destruct (Hstep ancestor n Hq) as (n' & Hn' & _ & Hmiss).
      exists n'. split; [done|]. apply sameState_matchCount, Hmiss.
      rewrite Hroute. intros [= Heq].
      apply Hbelow. apply (f_equal length) in Heq.
      rewrite length_app in Heq. destruct below; [done|simpl in Heq; lia].
Qed.

(** C10: one event fed to the matcher changes the events and the value sets
    of at most one node of the forest, every other node keeps its state, and
    an event that the type filter rejects or that no top-level pattern
    matches leaves the whole forest as it was. *)
Theorem mainMatchEvent_frame typeFilter _patterns event :
  Forall pattern_ok _patterns →
  ∃ _patterns' r log,
    mainMatchEvent typeFilter _patterns event = Returned (_patterns', r) log ∧
    (∃ touched : option ref,
       ∀ q n, Some q ≠ touched → derefForest _patterns q = Some n →
         ∃ n', derefForest _patterns' q = Some n' ∧ sameState n n') ∧
    (filteredOut typeFilter event = true ∨
     Forall (λ p, Re.match_ (regEx p) (Event.message event) = None) _patterns →
     _patterns' = _patterns).
Proof.
  intros Hok.
  destruct (mainMatchEvent_step typeFilter _patterns event Hok)
    as (log & Hrun & Hstep). cbv zeta in *.
  eexists _, _, log. split; [exact Hrun|]. split.
  - exists (spec_deepest typeFilter _patterns event). intros q n Hne Hq.
    destruct (Hstep q n Hq) as (n' & Hn' & _ & Hmiss).
    exists n'. split; [done|]. by apply Hmiss.
  - intros Hnone.
    assert (spec_deepest typeFilter _patterns event = None) as ->; [|done].
    unfold spec_deepest. destruct Hnone as [->|Hnone]; [done|].
    destruct (filteredOut _ _); [done|].
    apply spec_firstAccepting_None.
    eapply Forall_impl; [exact Hnone|]. intros p Hp. simpl in Hp.
    by rewrite spec_accept_unfold, Hp.
Qed.

(** C6: with a type filter configured, an event of another type is matched
    to no node: [mainMatchEvent] returns no node, applies no regex at all and
    hands the forest back as it was, so no matchCount and no value set
    changes. *)
Theorem typeFilter_drops_event t _patterns event :
  Event.type event ≠ t →
  mainMatchEvent (Some t) _patterns event = Returned (_patterns, None) [].
Proof.
  intros Hne. unfold mainMatchEvent, filteredOut.
  by destruct (Z.eqb_spec (Event.type event) t).
Qed.

Lemma recorded_groupValues event self m i g v :
  self_ok self →
  Re.match_ (regEx self) (Event.message event) = Some m →
  Re.groupdict m !! i = Some (g, v) →
  ∃ old, groupValues self !! i = Some old ∧
         groupValues (recorded event self) !! i = Some ({[captured v]} ∪ old).
Proof.
  intros (Hnames & Hlen & _ & _ & Hkeys) Hm Hv. specialize (Hkeys _ _ Hm).
  destruct (lookup_lt_is_Some_2 (groupValues self) i) as [old Hold].
  { rewrite Hlen, Hnames, <- Hkeys, length_fmap. by eapply lookup_lt_Some. }
  exists old. split; [done|]. unfold recorded. rewrite Hm. destruct self.
  cbn [groupValues set_groupValues set_events] in *.
  unfold recordedValues. rewrite lookup_zip_with, Hv. simpl. by rewrite Hold.
Qed.

(** C7: recording an event at a node adds exactly one to its matchCount and,
    for every named group of the node's regex, puts the substring the group
    captured into the value set of that group, and the placeholder ["-None-"]
    when the group captured nothing. *)
Theorem addEvent_records self event m :
  self_ok self →
  Re.match_ (regEx self) (Event.message event) = Some m →
  ∃ self',
    addEvent self event m = Returned self' [] ∧
    matchCount self' = S (matchCount self) ∧
    length (groupValues self') = length (groupValues self) ∧
    ∀ i g, Re.groupindex (regEx self) !! i = Some g →
      ∃ v old,
        groupNames self !! i = Some g ∧
        Re.groupdict m !! i = Some (g, v) ∧
        groupValues self !! i = Some old ∧
        groupValues self' !! i
        = Some ({[match v with Some s => s | None => "-None-" end]} ∪ old).
Proof.
  intros Hself Hm. exists (recorded event self).
  split; [by apply addEvent_recorded|].
  split; [apply recorded_matchCount; by rewrite Hm|].
  pose proof (recorded_self_ok event self Hself) as (_ & Hlen' & _).
  pose proof Hself as (Hnames & Hlen & _ & _ & Hkeys).
  rewrite recorded_groupNames in Hlen'. split; [congruence|].
  intros i g Hg. specialize (Hkeys _ _ Hm).
  assert (∃ v, Re.groupdict m !! i = Some (g, v)) as [v Hv].
  { rewrite <- Hkeys, list_lookup_fmap in Hg.
    destruct (Re.groupdict m !! i) as [[g' v]|]; [|done].
    injection Hg as <-. by exists v. }
  destruct (recorded_groupValues event self m i g v Hself Hm Hv)
    as (old & Hold & Hnew).
  exists v, old. by rewrite Hnames.
Qed.

(** C8: aggregation into a value set is idempotent: when two events recorded
    at a node yield the same captured substring for a group, the value set of
    that group after the second is the set after the first, with the same
    number of values. *)
Theorem addEvent_same_value_idempotent self event1 event2 m1 m2 i g v :
  self_ok self →
  Re.match_ (regEx self) (Event.message event1) = Some m1 →
  Re.match_ (regEx self) (Event.message event2) = Some m2 →
  Re.groupdict m1 !! i = Some (g, v) →
  Re.groupdict m2 !! i = Some (g, v) →
  ∃ self1 self2 s1 s2,
    addEvent self event1 m1 = Returned self1 [] ∧
    addEvent self1 event2 m2 = Returned self2 [] ∧
    groupValues self1 !! i = Some s1 ∧
    groupValues self2 !! i = Some s2 ∧
    s2 = s1 ∧ size s2 = size s1.
Proof.
  intros Hself Hm1 Hm2 Hv1 Hv2.
  pose proof (recorded_self_ok event1 self Hself) as Hself1.
  pose proof (recorded_regEx event1 self) as Hre. rewrite <- Hre in Hm2.
  destruct (recorded_groupValues event1 self m1 i g v Hself Hm1 Hv1)
    as (old & _ & Hset1).
  destruct (recorded_groupValues event2 _ m2 i g v Hself1 Hm2 Hv2)
    as (old1 & Hold1 & Hset2).
  rewrite Hset1 in Hold1. injection Hold1 as <-.
  assert ({[captured v]} ∪ ({[captured v]} ∪ old) = {[captured v]} ∪ old)
    as Hidem by apply subseteq_union_1_L, union_subseteq_l.
  rewrite Hidem in Hset2.
  exists (recorded event1 self), (recorded event2 (recorded event1 self)),
    ({[captured v]} ∪ old), ({[captured v]} ∪ old).
  split; [by apply addEvent_recorded|].
  split; [by apply addEvent_recorded|]. done.
Qed.

(** ** Siblings *)

(** The part of a route below a level is what the siblings of that level
    decide among themselves. *)
Lemma route_through_siblings typeFilter _patterns event q siblings below :
  siblingsAt _patterns q = Some siblings →
  spec_deepest typeFilter _patterns event = Some (q ++ below) →
  below = default []
            (spec_firstAccepting (spec_accept (Event.message event)) siblings).
Proof.
  intros Hsib Hroute. destruct q as [|i0 q].
  - injection Hsib as <-. unfold spec_deepest in Hroute.
    destruct (filteredOut _ _); [done|]. by rewrite Hroute.
  - apply spec_deepest_Some in Hroute as (_ & i & p & r' & [= <- <-] & Hi & Hacc).
    apply spec_accept_app in Hacc as (n & Hn & Hacc).
    cbn [siblingsAt derefForest] in Hsib. rewrite Hi, Hn in Hsib.
    injection Hsib as <-. rewrite spec_accept_unfold in Hacc.
    destruct (Re.match_ _ _); [|done]. by injection Hacc.
Qed.

Lemma first_matching_sibling msg siblings i a :
  siblings !! i = Some a →
  is_Some (Re.match_ (regEx a) msg) →
  (∀ k c, k < i → siblings !! k = Some c → Re.match_ (regEx c) msg = None) →
  ∃ below, spec_firstAccepting (spec_accept msg) siblings = Some (i :: below).
Proof.
  intros Ha Hm Hfirst.
  destruct (proj2 (spec_accept_is_Some msg a) Hm) as [below Hbelow].
  exists below. apply spec_firstAccepting_Some. exists i, a, below.
  repeat split; [done..|]. intros k c Hk Hc.
  rewrite spec_accept_unfold. by rewrite (Hfirst k c Hk Hc).
Qed.

(** C5: of two siblings whose regexes both match the message of an event, at
    the top level or under any node, the one declared later never receives
    the event, neither itself nor through a descendant; the earliest matching
    sibling receives it, itself or through its deepest matching descendant,
    whenever the event passes the type filter and reaches these siblings. *)
Theorem first_match_wins typeFilter _patterns event q siblings i j a b :
  Forall pattern_ok _patterns →
  siblingsAt _patterns q = Some siblings →
  siblings !! i = Some a → siblings !! j = Some b → i < j →
  is_Some (Re.match_ (regEx a) (Event.message event)) →
  is_Some (Re.match_ (regEx b) (Event.message event)) →
  ∃ _patterns' r log,
    mainMatchEvent typeFilter _patterns event = Returned (_patterns', r) log ∧
    (∀ below n, derefForest _patterns (q ++ j :: below) = Some n →
       ∃ n', derefForest _patterns' (q ++ j :: below) = Some n' ∧
             sameState n n') ∧
    (filteredOut typeFilter event = false →
     (q ≠ [] →
      ∃ below, spec_deepest typeFilter _patterns event = Some (q ++ below)) →
     (∀ k c, k < i → siblings !! k = Some c →
        Re.match_ (regEx c) (Event.message event) = None) →
     ∃ below n n',
       derefForest _patterns (q ++ i :: below) = Some n ∧
       derefForest _patterns' (q ++ i :: below) = Some n' ∧
       n' = recorded event n ∧ matchCount n' = S (matchCount n)).
Proof.
  intros Hok Hsib Ha Hb Hij Hma Hmb.
  destruct (mainMatchEvent_step typeFilter _patterns event Hok)
    as (log & Hrun & Hstep). cbv zeta in *.
  eexists _, _, log. split; [exact Hrun|]. split.
  - intros below n Hq. destruct (Hstep _ n Hq) as (n' & Hn' & _ & Hmiss).
    exists n'. split; [done|]. apply Hmiss. intros Hroute.
    pose proof (route_through_siblings _ _ _ _ _ _ Hsib Hroute) as Hbelow.
    destruct (spec_firstAccepting _ siblings) as [r'|] eqn:Hfirst; [|done].
    simpl in Hbelow. subst r'.
    apply spec_firstAccepting_Some in Hfirst
      as (j' & p & r' & [= <- <-] & _ & _ & Hnone).
    specialize (Hnone i a Hij Ha).
    destruct (proj2 (spec_accept_is_Some _ a) Hma) as [? ?]. congruence.
  - intros Hpass Hreach Hfirst.
    destruct (first_matching_sibling _ _ _ _ Ha Hma Hfirst) as [below Hbelow].
    assert (spec_deepest typeFilter _patterns event = Some (q ++ i :: below))
      as Hroute.
    { destruct q as [|i0 q].
      - injection Hsib as <-. unfold spec_deepest. by rewrite Hpass.
      - destruct Hreach as [below0 Hroute]; [done|]. rewrite Hroute.
        rewrite (route_through_siblings _ _ _ _ _ _ Hsib Hroute).
        by rewrite Hbelow. }
    destruct (spec_deepest_deref _ _ _ _ Hroute) as (n & Hn & _).
    destruct (Hstep _ n Hn) as (n' & Hn' & Hhit & _).
    exists below, n, n'. destruct (Hhit Hroute). done.
Qed.

(** ** Building the forest *)

Lemma findSubPatternWithId_unfold pattern id :
  findSubPatternWithId pattern id
  = findAmong (λ p, findSubPatternWithId p id) id (subPatterns pattern).
Proof. by destruct pattern. Qed.

Lemma addSubPattern_findParent _patterns pattern :
  addSubPattern _patterns pattern
  = (updateAt (appendSubPattern pattern)
       (findParent _patterns (parentId pattern)) _patterns,
     bool_decide (is_Some (findParent _patterns (parentId pattern)))).
Proof.
  unfold findParent.
  induction _patterns as [|p rest IH]; [done|].
  cbn [addSubPattern findAmong]. rewrite (String.eqb_sym (patternId p)).
  destruct (String.eqb _ _); [done|].
  destruct (findSubPatternWithId p _); [done|].
  unfold addSubPattern in IH. rewrite IH. rewrite updateAt_shift.
  by destruct (findAmong _ _ rest) as [[|? ?]|].
Qed.

Lemma findAmong_sound find id siblings r :
  Forall (λ p, ∀ r, find p = Some r →
            ∃ n, deref p r = Some n ∧ patternId n = id) siblings →
  findAmong find id siblings = Some r →
  ∃ n, derefForest siblings r = Some n ∧ patternId n = id.
Proof.
  intros Hfind. revert r.
  induction Hfind as [|p rest Hp _ IH]; intros r; [done|].
  cbn [findAmong]. destruct (String.eqb_spec (patternId p) id) as [Hid|_].
  { intros [= <-]. by exists p. }
  destruct (find p) as [sp|] eqn:Hsp.
  { intros [= <-]. cbn [derefForest]. simpl. by apply Hp. }
  destruct (findAmong find id rest) as [[|i r']|]; [|intros [= <-]|done].
  - by destruct (IH [] eq_refl) as (? & ? & _).
  - by apply (IH (i :: r')).
Qed.

Lemma findSubPatternWithId_sound id pattern r :
  findSubPatternWithId pattern id = Some r →
  ∃ n, deref pattern r = Some n ∧ patternId n = id.
Proof.
  revert r. induction pattern as [pattern IH] using EventPattern_tree_ind.
  intros r. rewrite findSubPatternWithId_unfold. intros Hr.
  apply findAmong_sound in Hr as (n & Hn & Hid); [|done].
  exists n. split; [|done]. by destruct r.
Qed.

Lemma findParent_sound _patterns id r :
  findParent _patterns id = Some r →
  ∃ n, derefForest _patterns r = Some n ∧ patternId n = id.
Proof.
  apply findAmong_sound, Forall_forall. intros p _ r'.
  apply findSubPatternWithId_sound.
Qed.

Lemma findAmong_complete find id siblings i p q n :
  Forall (λ p, ∀ q n, q ≠ [] → deref p q = Some n → patternId n = id →
            is_Some (find p)) siblings →
  siblings !! i = Some p → deref p q = Some n → patternId n = id →
  is_Some (findAmong find id siblings).
Proof.
  intros Hfind. revert i.
  induction Hfind as [|p0 rest Hp0 _ IH]; intros i Hi Hq Hid; [done|].
  cbn [findAmong]. destruct (String.eqb_spec (patternId p0) id) as [_|Hne]; [done|].
  destruct i as [|i].
  - injection Hi as ->.
    destruct (Hp0 q n) as [sp ->]; [|done..]. intros ->. injection Hq as ->. done.
  - destruct (find p0); [done|].
    destruct (IH i Hi Hq Hid) as [r ->]. done.
Qed.

Lemma findSubPatternWithId_complete id pattern q n :
  q ≠ [] → deref pattern q = Some n → patternId n = id →
  is_Some (findSubPatternWithId pattern id).
Proof.
  revert q n. induction pattern as [pattern IH] using EventPattern_tree_ind.
  intros [|i q] n Hq Hn Hid; [done|]. rewrite findSubPatternWithId_unfold.
  cbn [deref] in Hn. destruct (subPatterns pattern !! i) as [p|] eqn:Hi; [|done].
  by eapply findAmong_complete.
Qed.

Lemma findParent_complete _patterns id q n :
  derefForest _patterns q = Some n → patternId n = id →
  is_Some (findParent _patterns id).
Proof.
  destruct q as [|i q]; [done|]. cbn [derefForest].
  destruct (_patterns !! i) as [p|] eqn:Hi; [|done]. intros Hn Hid.
  eapply findAmong_complete; [|done..].
  apply Forall_forall. intros p' _ q' n'. apply findSubPatternWithId_complete.
Qed.

Lemma deref_append_stable pattern r self q n :
  deref self q = Some n →
  ∃ n', deref (update (appendSubPattern pattern) r self) q = Some n' ∧
        patternId n' = patternId n.
Proof.
  revert q self. induction r as [|i r IH]; intros q self Hq.
  - destruct q as [|j q]; cbn [deref update] in *.
    + injection Hq as <-. eexists. split; [done|]. by destruct self.
    + destruct self as [? ? ? ? ? ? ? subs].
      cbn [subPatterns appendSubPattern set_subPatterns] in *.
      destruct (subs !! j) as [p|] eqn:Hj; [|done].
      rewrite (lookup_app_l_Some _ _ _ _ Hj). by exists n.
  - destruct q as [|j q]; cbn [deref update] in *.
    + injection Hq as <-. eexists. split; [done|]. by destruct self.
    + destruct self as [? ? ? ? ? ? ? subs]. cbn [subPatterns set_subPatterns] in *.
      destruct (decide (i = j)) as [->|Hij].
      * rewrite list_lookup_alter_eq. destruct (subs !! j) as [p|]; [|done].
        by apply IH.
      * rewrite list_lookup_alter_ne by done. by exists n.
Qed.

Lemma derefForest_append_stable pattern o _patterns q n :
  derefForest _patterns q = Some n →
  ∃ n', derefForest (updateAt (appendSubPattern pattern) o _patterns) q = Some n' ∧
        patternId n' = patternId n.
Proof.
  intros Hq. destruct o as [[|i r]|]; cbn [updateAt updateForest]; eauto.
  destruct q as [|j q]; [done|]. cbn [derefForest] in *.
  destruct (decide (i = j)) as [->|Hij].
  - rewrite list_lookup_alter_eq. destruct (_patterns !! j) as [p|]; [|done].
    by apply deref_append_stable.
  - rewrite list_lookup_alter_ne by done. by exists n.
Qed.

Lemma derefForest_snoc _patterns q k n c :
  derefForest _patterns q = Some n → subPatterns n !! k = Some c →
  derefForest _patterns (q ++ [k]) = Some c.
Proof.
  destruct q as [|i q]; [done|]. cbn [derefForest app].
  destruct (_patterns !! i) as [p|]; [|done]. clear i _patterns.
  revert p. induction q as [|j q IH]; intros p; cbn [deref app].
  - intros [= ->] ->. done.
  - destruct (subPatterns p !! j); [|done]. apply IH.
Qed.

Lemma derefForest_snoc_inv _patterns q k c :
  q ≠ [] → derefForest _patterns (q ++ [k]) = Some c →
  ∃ n, derefForest _patterns q = Some n ∧ subPatterns n !! k = Some c.
Proof.
  destruct q as [|i q]; [done|]. intros _. cbn [derefForest app].
  destruct (_patterns !! i) as [p|]; [|done]. clear i _patterns.
  revert p. induction q as [|j q IH]; intros p; cbn [deref app].
  - destruct (subPatterns p !! k) as [c'|] eqn:Hk; [|done].
    intros [= ->]. by exists p.
  - destruct (subPatterns p !! j); [|done]. apply IH.
Qed.

Section LoadingProofs.
Variable compile : string → option Re.Regex.

Lemma init_compiled _patterns name regEx parent re :
  compile regEx = Some re →
  let self := mkEventPattern name name re (Re.groupindex re)
                ((λ _, ∅) <$> Re.groupindex re) parent [] [] in
  __init__ compile _patterns name regEx parent
  = Returned (if 0 <? String.length parent
              then updateAt (appendSubPattern self)
                     (findParent _patterns parent) _patterns
              else _patterns ++ [self]) [].
Proof.
  intros Hre self. unfold __init__, newPattern. rewrite Hre.
  rewrite mret_Returned, bind_ret. cbn [parentId].
  destruct (0 <? String.length parent); [|done].
  by rewrite addSubPattern_findParent.
Qed.

(** Loading never moves or renames a node that is already in the forest. *)
Lemma loadCsvFile_stable rows :
  Forall (λ row, is_Some (compile (MessageRegEx row))) rows →
  ∀ _patterns, ∃ _patterns',
    loadCsvFile compile _patterns rows = Returned _patterns' [] ∧
    ∀ q n, derefForest _patterns q = Some n →
      ∃ n', derefForest _patterns' q = Some n' ∧ patternId n' = patternId n.
Proof.
  induction 1 as [|row rows [re Hre] _ IH]; intros _patterns.
  { exists _patterns. split; [done|]. eauto. }
  cbn [loadCsvFile].
  rewrite (init_compiled _ _ _ _ _ Hre). cbv zeta. rewrite bind_ret.
  match goal with |- context [loadCsvFile compile ?f rows] =>
    destruct (IH f) as (final & Hload & Hstable) end.
  exists final. split; [done|]. intros q n Hq.
  destruct (0 <? String.length (parent row)).
  - destruct (derefForest_append_stable
                (mkEventPattern (Name row) (Name row) re (Re.groupindex re)
                   ((λ _, ∅) <$> Re.groupindex re) (parent row) [] [])
                (findParent _patterns (parent row)) _patterns q n Hq)
      as (n1 & Hn1 & Hid1).
    destruct (Hstable q n1 Hn1) as (n' & Hn' & Hid'). exists n'.
    split; [done|congruence].
  - apply Hstable. destruct q as [|i q]; [done|]. cbn [derefForest] in *.
    destruct (_patterns !! i) as [p|] eqn:Hi; [|done].
    by rewrite (lookup_app_l_Some _ _ _ _ Hi).
Qed.

Lemma loadCsvFile_app rows1 rows2 _patterns mid :
  loadCsvFile compile _patterns rows1 = Returned mid [] →
  loadCsvFile compile _patterns (rows1 ++ rows2)
  = loadCsvFile compile mid rows2.
Proof.
  revert _patterns. induction rows1 as [|row rows1 IH]; intros _patterns.
  { by intros [= ->]. }
  cbn [loadCsvFile app].
  destruct (__init__ compile _patterns _ _ _) as [next log|e]; [|done].
  intros Hrest.
  destruct (loadCsvFile compile next rows1) as [mid' log'|e] eqn:Hmid.
  - unfold mbind, outcome_bind in Hrest. rewrite Hmid in Hrest.
    injection Hrest as -> Hlog. apply app_eq_nil in Hlog as [-> ->].
    rewrite bind_ret. by apply IH.
  - unfold mbind, outcome_bind in Hrest. by rewrite Hmid in Hrest.
Qed.

(** C4, as the code has it: a pattern whose non-empty parentId is the id
    of a node that is in the forest when its row is read, at the top level
    or nested at any depth, is appended to the children of a node with that
    id, and stays there while the remaining rows are loaded. *)
Theorem parent_in_forest_attaches before row after _patterns :
  loadCsvFile compile [] before = Returned _patterns [] →
  Forall (λ row, is_Some (compile (MessageRegEx row))) (row :: after) →
  parent row ≠ "" →
  (∃ q n, derefForest _patterns q = Some n ∧ patternId n = parent row) →
  ∃ _patterns',
    loadCsvFile compile [] (before ++ row :: after) = Returned _patterns' [] ∧
    ∃ q n k c,
      derefForest _patterns' q = Some n ∧ patternId n = parent row ∧
      subPatterns n !! k = Some c ∧ patternId c = Name row ∧
      descendantOf _patterns' (parent row) (Name row).
Proof.
  intros Hbefore Hcompile Hparent (q0 & n0 & Hq0 & Hid0).
  rewrite (loadCsvFile_app _ _ _ _ Hbefore).
  apply Forall_cons in Hcompile as [[re Hre] Hafter].
  cbn [loadCsvFile].
  rewrite (init_compiled _ _ _ _ _ Hre). cbv zeta. rewrite bind_ret.
  assert ((0 <? String.length (parent row)) = true) as ->.
  { destruct (parent row); [done|]. done. }
  destruct (findParent_complete _ _ _ _ Hq0 Hid0) as [r Hr]. rewrite Hr.
  destruct (findParent_sound _ _ _ Hr) as (n & Hn & Hid).
  cbn [updateAt].
  set (self := mkEventPattern (Name row) (Name row) re (Re.groupindex re)
                 ((λ _, ∅) <$> Re.groupindex re) (parent row) [] []).
  pose proof (derefForest_update_same (appendSubPattern self) r _ n Hn) as Hn1.
  assert (derefForest (updateForest (appendSubPattern self) r _patterns)
            (r ++ [length (subPatterns n)]) = Some self) as Hc1.
  { eapply derefForest_snoc; [exact Hn1|]. destruct n.
    cbn [appendSubPattern set_subPatterns subPatterns].
    by apply list_lookup_middle. }
  destruct (loadCsvFile_stable after Hafter
              (updateForest (appendSubPattern self) r _patterns))
    as (final & Hload & Hstable).
  exists final. split; [done|].
  destruct (Hstable _ _ Hn1) as (n' & Hn' & Hid').
  destruct (Hstable _ _ Hc1) as (c' & Hc' & Hcid').
  apply derefForest_snoc_inv in Hc' as (n'' & Hn'' & Hk).
  2:{ destruct r; [|done]. by destruct _patterns. }
  assert (n'' = n') as -> by congruence.
  exists r, n', (length (subPatterns n)), c'.
  assert (patternId n' = parent row) as Hpid.
  { rewrite Hid'. by destruct n. }
  repeat split; [done..|].
  exists r, n', [length (subPatterns n)], c'.
  repeat split; [done..| |done]. cbn [deref]. by rewrite Hk.
Qed.
End LoadingProofs.

(** ** The forest that loading builds is well formed *)

Lemma update_append_ok pattern r x :
  pattern_ok pattern → pattern_ok x →
  pattern_ok (update (appendSubPattern pattern) r x).
Proof.
  intros Hpat. revert x. induction r as [|i r IH]; intros x Hx; cbn [update].
  - pose proof (pattern_ok_self _ Hx). pose proof (pattern_ok_subs _ Hx).
    destruct x. constructor; [done|].
    cbn [appendSubPattern set_subPatterns subPatterns] in *.
    apply Forall_app. split; [done|]. by constructor.
  - pose proof (pattern_ok_self _ Hx). pose proof (pattern_ok_subs _ Hx).
    destruct x. constructor; [done|].
    cbn [set_subPatterns subPatterns] in *.
    apply Forall_alter; [done|]. intros p _ Hp. by apply IH.
Qed.

Lemma loadCsvFile_pattern_ok compile rows :
  (∀ src re, compile src = Some re → regex_ok re) →
  ∀ _patterns _patterns' log,
    Forall pattern_ok _patterns →
    loadCsvFile compile _patterns rows = Returned _patterns' log →
    Forall pattern_ok _patterns'.
Proof.
  intros Hcompile. induction rows as [|row rows IH]; intros _patterns final log Hok.
  { by intros [= <- _]. }
  cbn [loadCsvFile].
  destruct (compile (MessageRegEx row)) as [re|] eqn:Hre.
  2:{ unfold __init__, newPattern. by rewrite Hre. }
  rewrite (init_compiled _ _ _ _ _ _ Hre). cbv zeta. rewrite bind_ret.
  apply IH.
  assert (pattern_ok (mkEventPattern (Name row) (Name row) re (Re.groupindex re)
                        ((λ _, ∅) <$> Re.groupindex re) (parent row) [] []))
    as Hself.
  { constructor; [|by constructor]. repeat split; cbn.
    - by rewrite length_fmap.
    - by destruct (Hcompile _ _ Hre).
    - by destruct (Hcompile _ _ Hre) as (_ & ? & _).
    - by destruct (Hcompile _ _ Hre) as (_ & _ & ?). }
  destruct (0 <? String.length (parent row)).
  - destruct (findParent _ _) as [[|i r]|]; cbn [updateAt updateForest]; try done.
    apply Forall_alter; [done|]. intros p _ Hp. by apply update_append_ok.
  - apply Forall_app. split; [done|]. by constructor.
Qed.

Lemma literals_ok src names alts :
  NoDup names → Forall (λ g, g ≠ "") names →
  Forall (λ alt, length alt.2 = length names) alts →
  regex_ok (literals src names alts).
Proof.
  intros Hnd Hne Halts. repeat split; [done..|].
  intros msg m. cbn [literals Re.match_ Re.groupindex].
  destruct (firstPrefix alts msg) as [caps|] eqn:Hcaps; [|done].
  intros [= <-]. cbn [Re.groupdict]. apply fst_zip.
  induction Halts as [|[lit caps'] rest Hlen _ IH]; [done|].
  cbn [firstPrefix] in Hcaps. destruct (String.prefix lit msg).
  - injection Hcaps as <-. simpl in Hlen. lia.
  - by apply IH.
Qed.

Lemma exampleCompile_ok src re : exampleCompile src = Some re → regex_ok re.
Proof.
  intros [Hin _]%find_some. unfold exampleRegexes in Hin. simpl in Hin.
  repeat (destruct Hin as [<-|Hin];
          [apply literals_ok;
             [by apply (bool_decide_unpack _)
             |by repeat constructor
             |by repeat constructor]|]).
  done.
Qed.

Lemma loaded_ok rows : Forall pattern_ok (loaded rows).
Proof.
  unfold loaded.
  destruct (loadCsvFile exampleCompile [] rows) as [_patterns log|] eqn:Hload;
    [|constructor].
  eapply loadCsvFile_pattern_ok; [apply exampleCompile_ok|constructor|done].
Qed.

(** C2, at a forest three levels deep: the pattern file declares A, B under
    A and C under B, and every one of the three matches the message.  The
    event is recorded at C, the deepest matching node, and [mainMatchEvent]
    returns B, the child of the root, whose matchCount stays 0. *)
Theorem mainMatchEvent_returns_child_of_root :
  ∃ _patterns' log,
    loadCsvFile exampleCompile [] nestedRows = Returned (loaded nestedRows) [] ∧
    mainMatchEvent None (loaded nestedRows) (logged 0 "foo bar baz")
      = Returned (_patterns', Some [0; 0]) log ∧
    spec_deepest None (loaded nestedRows) (logged 0 "foo bar baz")
      = Some [0; 0; 0] ∧
    (patternId <$> derefForest _patterns' [0; 0; 0]) = Some "C" ∧
    (matchCount <$> derefForest _patterns' [0; 0; 0]) = Some 1 ∧
    (patternId <$> derefForest _patterns' [0; 0]) = Some "B" ∧
    (matchCount <$> derefForest _patterns' [0; 0]) = Some 0.
Proof.
  set (event := logged 0 "foo bar baz").
  destruct (mainMatchEvent_step None (loaded nestedRows) event
              (loaded_ok nestedRows)) as (log & Hrun & _).
  cbv zeta in Hrun.
  assert (spec_deepest None (loaded nestedRows) event = Some [0; 0; 0]) as Hroute
    by by vm_compute.
  rewrite Hroute in Hrun. eexists _, log.
  split; [by vm_compute|]. split; [exact Hrun|]. split; [done|].
  repeat split; by vm_compute.
Qed.

(** C4 as stated fails for a parent declared on a later row: B names A as
    its parent and A is declared after B; when B's row is read no node has
    the id A, B is dropped, and the forest ends up as the single root A
    without any child. *)
Lemma forward_reference_not_attached :
  ∃ _patterns,
    loadCsvFile exampleCompile [] forwardRows = Returned _patterns [] ∧
    (∃ row declared, row ∈ forwardRows ∧ declared ∈ forwardRows ∧
                     parent row = Name declared ∧
                     ¬ descendantOf _patterns (parent row) (Name row)).
Proof.
  exists (loaded forwardRows). split; [by vm_compute|].
  exists (mkRow "B" "foo bar" "A"), (mkRow "A" "foo.*" "").
  split; [set_solver|]. split; [set_solver|]. split; [done|].
  intros (q & n & below & c & Hq & _ & Hbelow & Hc & _).
  destruct q as [|[|i] [|j q]]; try done.
  injection Hq as <-. by destruct below as [|[|k] below].
Qed.

(** ** The report *)

Lemma iter_singleton (iter : gset string → list string) (v : string) :
  (∀ s, iter s ≡ₚ elements s) → iter {[v]} = [v].
Proof.
  intros Hiter. apply Permutation_singleton_r.
  by rewrite Hiter, elements_singleton.
Qed.

(** C3, at a pattern whose hidden group comes before a visible one: after
    the event "Login alice" the group [_kind] holds the value Login and the
    group [user] holds the value alice.  The default report leaves out the
    line of [_kind], and its line for [user] shows the value set of [_kind]. *)
Theorem hidden_group_shifts_values (iter : gset string → list string) :
  (∀ s, iter s ≡ₚ elements s) →
  ∃ _patterns' r log,
    mainMatchEvent None (loaded loginRows) (logged 0 "Login alice")
      = Returned (_patterns', r) log ∧
    (groupNames <$> _patterns' !! 0) = Some ["_kind"; "user"] ∧
    (groupValues <$> _patterns' !! 0) = Some [{["Login"]}; {["alice"]}] ∧
    printResults false iter _patterns'
    = Returned ("***    1x Login - (?P<_kind>Login) (?P<user>alice|bob)" +:+ nl
                +:+ "  user (1): Login" +:+ nl +:+ nl) [].
Proof.
  intros Hiter. set (event := logged 0 "Login alice").
  destruct (mainMatchEvent_step None (loaded loginRows) event
              (loaded_ok loginRows)) as (log & Hrun & _).
  cbv zeta in Hrun. eexists _, _, log. split; [exact Hrun|].
  assert (∃ re,
            updateAt (recorded event) (spec_deepest None (loaded loginRows) event)
              (loaded loginRows)
            = [mkEventPattern "Login" "Login" re ["_kind"; "user"]
                 [{["Login"]}; {["alice"]}] "" [event] []] ∧
            Re.pattern re = "(?P<_kind>Login) (?P<user>alice|bob)")
    as (re & -> & Hsrc).
  { eexists. split; by vm_compute. }
  split; [done|]. split; [done|].
  pose proof (iter_singleton iter "Login" Hiter) as Hjoin.
  pose proof (size_singleton (C:=gset string) "Login") as Hsize.
  revert Hjoin Hsize. generalize ({["Login"]} : gset string) as kinds.
  generalize ({["alice"]} : gset string) as users.
  intros users kinds Hjoin Hsize.
  cbn [printResults __str__ events length Nat.eqb andb negb subPatterns
       groupValues groupNames groupLines subPatternLines name regEx].
  cbn [Ascii.eqb Bool.eqb andb negb lookup list_lookup].
  rewrite Hsize, Hjoin, Hsrc. by vm_compute.
Qed.

Lemma append_empty_r (s : string) : s +:+ "" = s.
Proof.
  induction s as [|c s IH]; [done|].
  change (String c (s +:+ "") = String c s). by rewrite IH.
Qed.

Lemma groupLines_detail iter values i names :
  Forall (λ g, g ≠ "") names → i + length names ≤ length values →
  ∃ lines, groupLines true iter values i names = Returned lines [].
Proof.
  intros Hne. revert i. induction Hne as [|g names Hg _ IH]; intros i Hlen.
  - by exists "".
  - cbn [groupLines]. destruct g as [|c g]; [done|].
    rewrite andb_false_r.
    destruct (lookup_lt_is_Some_2 values i) as [s ->]; [simpl in Hlen; lia|].
    destruct (IH (S i)) as [more ->]; [simpl in Hlen; lia|].
    rewrite bind_ret. by eexists.
Qed.

(** The text [__str__] returns for a node that no event was recorded at and
    that has no children: empty when detail mode is off, and the line with
    the count 0, its name and its regex when detail mode is on. *)
Lemma unmatched_leaf_report (iter : gset string → list string) self :
  self_ok self → matchCount self = 0 → subPatterns self = [] →
  __str__ false iter self = Returned "" [] ∧
  ∃ groups,
    __str__ true iter self
    = Returned (("*** " +:+ "   0" +:+ "x " +:+ name self +:+ " - "
                 +:+ Re.pattern (regEx self) +:+ nl) +:+ groups) [].
Proof.
  intros (Hnames & Hlen & _ & Hne & _) Hcount Hleaf.
  destruct self as [pid nm re names values par ev subs].
  cbn [matchCount events subPatterns groupNames groupValues regEx name] in *.
  subst subs. destruct ev; [|done]. split; [done|].
  destruct (groupLines_detail iter values 0 names) as [groups Hgroups].
  { by rewrite Hnames. }
  { lia. }
  exists groups.
  cbn [__str__ events length Nat.eqb andb negb subPatterns groupValues
       groupNames subPatternLines name regEx].
  rewrite Hgroups, bind_ret. rewrite mret_Returned, bind_ret.
  by rewrite mret_Returned, append_empty_r.
Qed.

(** ** Worked examples *)

Lemma syncNode_ok : self_ok syncNode.
Proof.
  split; [done|]. split; [done|]. apply literals_ok.
  - by apply (bool_decide_unpack _).
  - by repeat constructor.
  - by repeat constructor.
Qed.

Lemma matchCount_counts_deepest_example :
  Forall pattern_ok (loaded nestedRows) ∧
  ∃ _patterns' log,
    mainLoop None (loaded nestedRows)
      [logged 0 "foo bar baz"; logged 0 "foo"; logged 0 "foo bar baz"]
    = Returned _patterns' log ∧
    ∀ q n, derefForest (loaded nestedRows) q = Some n →
      ∃ n', derefForest _patterns' q = Some n' ∧
            matchCount n'
            = matchCount n
              + length (filter (λ e, spec_deepest None (loaded nestedRows) e
                                     = Some q)
                          [logged 0 "foo bar baz"; logged 0 "foo";
                           logged 0 "foo bar baz"]).
Proof.
  split; [apply loaded_ok|].
  apply (proj1 (matchCount_counts_deepest None (loaded nestedRows)
                  (loaded_ok nestedRows))).
Defined.

Lemma mainMatchEvent_frame_example :
  Forall pattern_ok (loaded nestedRows) ∧
  ∃ _patterns' r log,
    mainMatchEvent None (loaded nestedRows) (logged 0 "foo bar")
    = Returned (_patterns', r) log ∧
    (∃ touched : option ref,
       ∀ q n, Some q ≠ touched → derefForest (loaded nestedRows) q = Some n →
         ∃ n', derefForest _patterns' q = Some n' ∧ sameState n n') ∧
    (filteredOut None (logged 0 "foo bar") = true ∨
     Forall (λ p, Re.match_ (regEx p) (Event.message (logged 0 "foo bar")) = None)
       (loaded nestedRows) →
     _patterns' = loaded nestedRows).
Proof.
  split; [apply loaded_ok|].
  apply (mainMatchEvent_frame None (loaded nestedRows) (logged 0 "foo bar")).
  apply loaded_ok.
Defined.

Lemma typeFilter_drops_event_example :
  Event.type (logged 0 "foo bar") ≠ 1%Z ∧
  mainMatchEvent (Some 1%Z) (loaded nestedRows) (logged 0 "foo bar")
  = Returned (loaded nestedRows, None) [].
Proof.
  split; [by vm_compute|].
  apply (typeFilter_drops_event 1 (loaded nestedRows) (logged 0 "foo bar")).
  by vm_compute.
Defined.

Lemma addEvent_records_example :
  self_ok syncNode ∧
  Re.match_ (regEx syncNode) (Event.message (logged 0 "Sync"))
  = Some (Re.mkMatch [("op", Some "Sync"); ("obj", None)]) ∧
  ∃ self',
    addEvent syncNode (logged 0 "Sync")
      (Re.mkMatch [("op", Some "Sync"); ("obj", None)])
    = Returned self' [] ∧
    matchCount self' = S (matchCount syncNode) ∧
    length (groupValues self') = length (groupValues syncNode) ∧
    ∀ i g, Re.groupindex (regEx syncNode) !! i = Some g →
      ∃ v old,
        groupNames syncNode !! i = Some g ∧
        Re.groupdict (Re.mkMatch [("op", Some "Sync"); ("obj", None)]) !! i
        = Some (g, v) ∧
        groupValues syncNode !! i = Some old ∧
        groupValues self' !! i
        = Some ({[match v with Some s => s | None => "-None-" end]} ∪ old).
Proof.
  split; [apply syncNode_ok|]. split; [reflexivity|].
  apply (addEvent_records syncNode (logged 0 "Sync")
           (Re.mkMatch [("op", Some "Sync"); ("obj", None)])).
  - apply syncNode_ok.
  - reflexivity.
Defined.

Lemma addEvent_same_value_idempotent_example :
  self_ok syncNode ∧
  Re.match_ (regEx syncNode) (Event.message (logged 0 "Sync users of A"))
  = Some (Re.mkMatch [("op", Some "Sync"); ("obj", Some "users")]) ∧
  Re.match_ (regEx syncNode) (Event.message (logged 1 "Sync users of B"))
  = Some (Re.mkMatch [("op", Some "Sync"); ("obj", Some "users")]) ∧
  ∃ self1 self2 s1 s2,
    addEvent syncNode (logged 0 "Sync users of A")
      (Re.mkMatch [("op", Some "Sync"); ("obj", Some "users")])
    = Returned self1 [] ∧
    addEvent self1 (logged 1 "Sync users of B")
      (Re.mkMatch [("op", Some "Sync"); ("obj", Some "users")])
    = Returned self2 [] ∧
    groupValues self1 !! 1 = Some s1 ∧
    groupValues self2 !! 1 = Some s2 ∧
    s2 = s1 ∧ size s2 = size s1.
Proof.
  split; [apply syncNode_ok|]. split; [reflexivity|]. split; [reflexivity|].
  apply (addEvent_same_value_idempotent syncNode
           (logged 0 "Sync users of A") (logged 1 "Sync users of B")
           (Re.mkMatch [("op", Some "Sync"); ("obj", Some "users")])
           (Re.mkMatch [("op", Some "Sync"); ("obj", Some "users")])
           1 "obj" (Some "users")).
  - apply syncNode_ok.
  - reflexivity.
  - reflexivity.
  - reflexivity.
  - reflexivity.
Defined.

Lemma first_match_wins_example :
  Forall pattern_ok (loaded siblingRows) ∧
  siblingsAt (loaded siblingRows) [0] = Some [nodeB; nodeC] ∧
  is_Some (Re.match_ (regEx nodeB) (Event.message (logged 0 "foo bar"))) ∧
  is_Some (Re.match_ (regEx nodeC) (Event.message (logged 0 "foo bar"))) ∧
  spec_deepest None (loaded siblingRows) (logged 0 "foo bar") = Some ([0] ++ [0]) ∧
  ∃ _patterns' r log,
    mainMatchEvent None (loaded siblingRows) (logged 0 "foo bar")
    = Returned (_patterns', r) log ∧
    (∀ below n, derefForest (loaded siblingRows) ([0] ++ 1 :: below) = Some n →
       ∃ n', derefForest _patterns' ([0] ++ 1 :: below) = Some n' ∧
             sameState n n') ∧
    (∃ below n n',
       derefForest (loaded siblingRows) ([0] ++ 0 :: below) = Some n ∧
       derefForest _patterns' ([0] ++ 0 :: below) = Some n' ∧
       n' = recorded (logged 0 "foo bar") n ∧
       matchCount n' = S (matchCount n)).
Proof.
  split; [apply loaded_ok|]. split; [by vm_compute|].
  split; [by eexists|]. split; [by eexists|]. split; [by vm_compute|].
  destruct (first_match_wins None (loaded siblingRows) (logged 0 "foo bar")
              [0] [nodeB; nodeC] 0 1 nodeB nodeC)
    as (_patterns' & r & log & Hrun & Hlater & Hearlier).
  - apply loaded_ok.
  - by vm_compute.
  - reflexivity.
  - reflexivity.
  - lia.
  - by eexists.
  - by eexists.
  - exists _patterns', r, log. split; [exact Hrun|]. split; [exact Hlater|].
    apply Hearlier.
    + reflexivity.
    + intros _. exists [0]. by vm_compute.
    + intros k c Hk. lia.
Defined.

Lemma parent_in_forest_attaches_example :
  loadCsvFile exampleCompile [] [mkRow "A" "foo.*" ""]
  = Returned (loaded [mkRow "A" "foo.*" ""]) [] ∧
  Forall (λ row, is_Some (exampleCompile (MessageRegEx row)))
    [mkRow "B" "foo bar" "A"; mkRow "C" "foo bar baz" "B"] ∧
  parent (mkRow "B" "foo bar" "A") ≠ "" ∧
  (∃ q n, derefForest (loaded [mkRow "A" "foo.*" ""]) q = Some n ∧
          patternId n = parent (mkRow "B" "foo bar" "A")) ∧
  ∃ _patterns',
    loadCsvFile exampleCompile []
      ([mkRow "A" "foo.*" ""]
       ++ mkRow "B" "foo bar" "A" :: [mkRow "C" "foo bar baz" "B"])
    = Returned _patterns' [] ∧
    ∃ q n k c,
      derefForest _patterns' q = Some n ∧
      patternId n = parent (mkRow "B" "foo bar" "A") ∧
      subPatterns n !! k = Some c ∧
      patternId c = Name (mkRow "B" "foo bar" "A") ∧
      descendantOf _patterns' (parent (mkRow "B" "foo bar" "A"))
        (Name (mkRow "B" "foo bar" "A")).
Proof.
  assert (∃ q n, derefForest (loaded [mkRow "A" "foo.*" ""]) q = Some n ∧
                 patternId n = parent (mkRow "B" "foo bar" "A")) as Hparent.
  { exists [0]. eexists. split; by vm_compute. }
  assert (Forall (λ row, is_Some (exampleCompile (MessageRegEx row)))
            [mkRow "B" "foo bar" "A"; mkRow "C" "foo bar baz" "B"]) as Hcompile.
  { repeat constructor; by eexists. }
  split; [by vm_compute|]. split; [exact Hcompile|]. split; [done|].
  split; [exact Hparent|].
  apply (parent_in_forest_attaches exampleCompile [mkRow "A" "foo.*" ""]
           (mkRow "B" "foo bar" "A") [mkRow "C" "foo bar baz" "B"]
           (loaded [mkRow "A" "foo.*" ""])).
  - by vm_compute.
  - exact Hcompile.
  - done.
  - exact Hparent.
Defined.

Lemma hidden_group_shifts_values_example :
  (∀ s : gset string, elements s ≡ₚ elements s) ∧
  ∃ _patterns' r log,
    mainMatchEvent None (loaded loginRows) (logged 0 "Login alice")
      = Returned (_patterns', r) log ∧
    (groupNames <$> _patterns' !! 0) = Some ["_kind"; "user"] ∧
    (groupValues <$> _patterns' !! 0) = Some [{["Login"]}; {["alice"]}] ∧
    printResults false elements _patterns'
    = Returned ("***    1x Login - (?P<_kind>Login) (?P<user>alice|bob)" +:+ nl
                +:+ "  user (1): Login" +:+ nl +:+ nl) [].
Proof.
  split; [intros s; reflexivity|].
  apply (hidden_group_shifts_values elements). intros s. reflexivity.
Defined.

Lemma unmatched_leaf_report_example :
  self_ok syncNode ∧ matchCount syncNode = 0 ∧ subPatterns syncNode = [] ∧
  __str__ false elements syncNode = Returned "" [] ∧
  ∃ groups,
    __str__ true elements syncNode
    = Returned (("*** " +:+ "   0" +:+ "x " +:+ name syncNode +:+ " - "
                 +:+ Re.pattern (regEx syncNode) +:+ nl) +:+ groups) [].
Proof.
  split; [apply syncNode_ok|]. split; [reflexivity|]. split; [reflexivity|].
  apply (unmatched_leaf_report elements syncNode).
  - apply syncNode_ok.
  - reflexivity.
  - reflexivity.
Defined.


(** * More of the matcher *)

Lemma derefForest_updateAt g o _patterns q n :
  (∀ x, subPatterns (g x) = subPatterns x) →
  derefForest _patterns q = Some n →
  ∃ n', derefForest (updateAt g o _patterns) q = Some n' ∧
        (o = Some q → n' = g n) ∧ (o ≠ Some q → sameState n n').
Proof.
  intros Hg Hq. destruct o as [r|]; cbn [updateAt].
  - destruct (decide (q = r)) as [->|Hne].
    + exists (g n). split; [by apply derefForest_update_same|]. by split.
    + destruct (derefForest_update_other g r q _patterns n) as (n' & Hn' & Hsame);
        [done..|].
      exists n'. split; [done|]. split; [congruence|done].
  - exists n. split; [done|]. split; [done|]. intros _. apply sameState_refl.
Qed.

Lemma deref_ok self q n : pattern_ok self → deref self q = Some n → pattern_ok n.
Proof.
  revert self. induction q as [|i q IH]; intros self Hok; cbn [deref].
  - by intros [= <-].
  - destruct (subPatterns self !! i) as [p|] eqn:Hi; [|done].
    apply IH. eapply Forall_lookup_1; [by apply pattern_ok_subs|done].
Qed.

Lemma derefForest_ok _patterns q n :
  Forall pattern_ok _patterns → derefForest _patterns q = Some n → pattern_ok n.
Proof.
  intros Hok. destruct q as [|i q]; [done|]. cbn [derefForest].
  destruct (_patterns !! i) as [p|] eqn:Hi; [|done].
  apply deref_ok. by eapply Forall_lookup_1.
Qed.

(** Every run of [mainLoop] on a well-formed forest is a chain of
    recordings, each at the deepest matching node of its event. *)
Lemma mainLoop_steps typeFilter base
    (Q : list EventPattern → list Event.t → list EventPattern → Prop) :
  (∀ f, Q f [] f) →
  (∀ f e es f',
     Forall pattern_ok f →
     (∀ e', spec_deepest typeFilter f e' = spec_deepest typeFilter base e') →
     Q (updateAt (recorded e) (spec_deepest typeFilter base e) f) es f' →
     Q f (e :: es) f') →
  ∀ parsed f,
    Forall pattern_ok f →
    (∀ e', spec_deepest typeFilter f e' = spec_deepest typeFilter base e') →
    ∃ f' log, mainLoop typeFilter f parsed = Returned f' log ∧ Q f parsed f'.
Proof.
  intros Hnil Hcons. induction parsed as [|e es IH]; intros f Hok Hbase.
  - exists f, []. by split.
  - destruct (mainMatchEvent_step typeFilter f e Hok) as (log & Hrun & _).
    cbv zeta in Hrun. rewrite Hbase in Hrun.
    destruct (IH (updateAt (recorded e) (spec_deepest typeFilter base e) f))
      as (f' & log' & Hloop & HQ).
    { by apply updateAt_pattern_ok. }
    { intros e'. by rewrite spec_deepest_updateAt. }
    exists f'. eexists. split.
    + cbn [mainLoop]. eapply bind_returns; [exact Hrun|exact Hloop].
    + by apply Hcons.
Qed.

(** X1: on a well-formed forest [mainMatchEvent] returns no node exactly
    when it leaves the forest as it was; when it returns a node, one node
    recorded the event through [addEvent], and the reference returned is the
    first two steps of the reference to that node: the node itself when it is
    a root or a child of a root. *)
Theorem mainMatchEvent_returned typeFilter _patterns event :
  Forall pattern_ok _patterns →
  ∃ _patterns' r log,
    mainMatchEvent typeFilter _patterns event = Returned (_patterns', r) log ∧
    match r with
    | None => _patterns' = _patterns
    | Some returned =>
        ∃ q n m n',
          derefForest _patterns q = Some n ∧
          Re.match_ (regEx n) (Event.message event) = Some m ∧
          addEvent n event m = Returned n' [] ∧
          derefForest _patterns' q = Some n' ∧
          matchCount n' = S (matchCount n) ∧
          returned = take 2 q
    end.
Proof.
  intros Hok.
  destruct (mainMatchEvent_step typeFilter _patterns event Hok)
    as (log & Hrun & Hstep). cbv zeta in *.
  eexists _, _, log. split; [exact Hrun|].
  destruct (spec_deepest typeFilter _patterns event) as [q|] eqn:Hroute;
    cbn [fmap option_fmap option_map]; [|done].
  destruct (spec_deepest_deref _ _ _ _ Hroute) as (n & Hn & [m Hm] & _).
  destruct (Hstep q n Hn) as (n' & Hn' & Hhit & _).
  destruct (Hhit eq_refl) as [-> Hcount].
  exists q, n, m, (recorded event n). cbn [updateAt] in *.
  repeat split; try done.
  apply addEvent_recorded; [|done].
  by apply pattern_ok_self, (derefForest_ok _ _ _ Hok Hn).
Qed.

(** X2: after a stream of events, the events kept at every node are the
    ones it had before, followed by the events of the stream whose deepest
    matching node it is, in the order of the stream. *)
Theorem mainLoop_events_in_order typeFilter _patterns parsed :
  Forall pattern_ok _patterns →
  ∃ _patterns' log,
    mainLoop typeFilter _patterns parsed = Returned _patterns' log ∧
    ∀ q n, derefForest _patterns q = Some n →
      ∃ n', derefForest _patterns' q = Some n' ∧
            events n'
            = events n
              ++ filter (λ e, spec_deepest typeFilter _patterns e = Some q)
                   parsed.
Proof.
  intros Hok.
  apply (mainLoop_steps typeFilter _patterns
           (λ f es f', ∀ q n, derefForest f q = Some n →
              ∃ n', derefForest f' q = Some n' ∧
                    events n'
                    = events n
                      ++ filter (λ e, spec_deepest typeFilter _patterns e
                                      = Some q) es)); [| |done|done].
  - intros f q n Hq. exists n. split; [done|]. by rewrite app_nil_r.
  - intros f e es f' Hf Hbase HQ q n Hq.
    destruct (derefForest_updateAt (recorded e)
                (spec_deepest typeFilter _patterns e) f q n)
      as (n1 & Hn1 & Hhit & Hmiss); [apply recorded_subPatterns|done|].
    destruct (HQ q n1 Hn1) as (n' & Hn' & Hev). exists n'. split; [done|].
    rewrite Hev, filter_cons. case_decide as Hdec.
    + rewrite (Hhit Hdec). rewrite recorded_events; [by rewrite <- app_assoc|].
      rewrite <- Hbase in Hdec.
      apply spec_deepest_deref in Hdec as (n0 & Hn0 & Hm & _). congruence.
    + by destruct (Hmiss Hdec) as [-> _].
Qed.

Lemma totalCount_unfold self :
  totalCount self = matchCount self + sum_list_with totalCount (subPatterns self).
Proof. by destruct self. Qed.

Lemma sum_list_with_alter {A} (h : A → nat) g i (l : list A) p :
  l !! i = Some p →
  sum_list_with h (alter g i l) + h p = sum_list_with h l + h (g p).
Proof.
  revert i. induction l as [|x l IH]; intros [|i] Hi; try done.
  - injection Hi as ->. cbn [alter list_alter sum_list_with]. lia.
  - specialize (IH i Hi). cbn [alter list_alter sum_list_with] in *.
    change (list_alter g i l) with (alter g i l). lia.
Qed.

Lemma totalCount_update g r self n :
  (∀ x, subPatterns (g x) = subPatterns x) →
  deref self r = Some n →
  totalCount (update g r self) + matchCount n
  = totalCount self + matchCount (g n).
Proof.
  intros Hg. revert self. induction r as [|i r IH]; intros self; cbn [deref update].
  - intros [= ->]. rewrite !totalCount_unfold, Hg. lia.
  - destruct (subPatterns self !! i) as [p|] eqn:Hi; [|done]. intros Hn.
    specialize (IH p Hn). rewrite !totalCount_unfold.
    pose proof (sum_list_with_alter totalCount (update g r) i _ p Hi) as Hsum.
    destruct self. unfold matchCount at 1 3.
    cbn [subPatterns set_subPatterns events] in *. lia.
Qed.

Lemma totalCountForest_recorded event r _patterns n :
  derefForest _patterns r = Some n →
  is_Some (Re.match_ (regEx n) (Event.message event)) →
  totalCountForest (updateForest (recorded event) r _patterns)
  = S (totalCountForest _patterns).
Proof.
  destruct r as [|i r]; [done|]. cbn [derefForest updateForest].
  destruct (_patterns !! i) as [p|] eqn:Hi; [|done]. intros Hn Hm.
  pose proof (totalCount_update (recorded event) r p n
                (recorded_subPatterns event) Hn) as Hp.
  pose proof (sum_list_with_alter totalCount (update (recorded event) r) i _ p Hi)
    as Hsum.
  rewrite (recorded_matchCount _ _ Hm) in Hp. unfold totalCountForest. lia.
Qed.

Lemma reachesForest_spec_deepest typeFilter _patterns event :
  reachesForest typeFilter _patterns event = true ↔
  is_Some (spec_deepest typeFilter _patterns event).
Proof.
  unfold reachesForest, spec_deepest.
  destruct (filteredOut typeFilter event); cbn [negb andb].
  { split; [done|]. by intros [? ?]. }
  rewrite <- not_eq_None_Some, spec_firstAccepting_None.
  rewrite existsb_exists. split.
  - intros (p & Hp & Hm) Hnone. apply bool_decide_eq_true in Hm.
    apply list_elem_of_In in Hp.
    pose proof (proj1 (Forall_forall _ _) Hnone p Hp) as Hacc. simpl in Hacc.
    apply spec_accept_is_Some in Hm as [? ?]. congruence.
  - intros Hsome. apply not_Forall_Exists in Hsome; [|solve_decision].
    apply Exists_exists in Hsome as (p & Hp & Hacc).
    exists p. split; [by apply list_elem_of_In|]. apply bool_decide_eq_true.
    apply spec_accept_is_Some. by apply not_eq_None_Some.
Qed.

(** X3: nothing is counted twice and nothing is lost: after a stream of
    events the counts of all nodes of the forest, added up, have grown by the
    number of events of the stream that pass the type filter and that the
    regex of at least one top-level pattern matches. *)
Theorem mainLoop_total_count typeFilter _patterns parsed :
  Forall pattern_ok _patterns →
  ∃ _patterns' log,
    mainLoop typeFilter _patterns parsed = Returned _patterns' log ∧
    totalCountForest _patterns'
    = totalCountForest _patterns
      + length (filter (λ e, reachesForest typeFilter _patterns e = true) parsed).
Proof.
  intros Hok.
  apply (mainLoop_steps typeFilter _patterns
           (λ f es f',
              totalCountForest f'
              = totalCountForest f
                + length (filter (λ e, reachesForest typeFilter _patterns e = true)
                            es))); [| |done|done].
  - intros f. simpl. lia.
  - intros f e es f' Hf Hbase HQ. rewrite HQ, filter_cons.
    destruct (spec_deepest typeFilter _patterns e) as [r|] eqn:Hroute.
    + rewrite decide_True.
      2:{ apply reachesForest_spec_deepest. by rewrite Hroute. }
      rewrite <- Hbase in Hroute.
      apply spec_deepest_deref in Hroute as (n & Hn & Hm & _).
      cbn [updateAt]. rewrite (totalCountForest_recorded _ _ _ _ Hn Hm).
      simpl. lia.
    + rewrite decide_False; [done|].
      intros [? Hsome]%reachesForest_spec_deepest. congruence.
Qed.

Lemma sameIdentity_refl a : sameIdentity a a.
Proof. by repeat split. Qed.

Lemma sameIdentity_trans a b c :
  sameIdentity a b → sameIdentity b c → sameIdentity a c.
Proof.
  intros (?&?&?&?&?&?) (?&?&?&?&?&?). repeat split; congruence.
Qed.

Lemma option_sameIdentity_trans x y z :
  option_Forall2 sameIdentity x y → option_Forall2 sameIdentity y z →
  option_Forall2 sameIdentity x z.
Proof.
  intros Hxy Hyz. destruct Hxy as [a b Hab|]; inversion Hyz; subst;
    constructor. by eapply sameIdentity_trans.
Qed.

Lemma option_sameIdentity_refl x : option_Forall2 sameIdentity x x.
Proof. destruct x; constructor. apply sameIdentity_refl. Qed.

Lemma recorded_sameIdentity event x : sameIdentity x (recorded event x).
Proof.
  unfold recorded. destruct (Re.match_ _ _); [|apply sameIdentity_refl].
  by destruct x.
Qed.

Lemma deref_update_identity g r self q :
  (∀ x, sameIdentity x (g x)) → (∀ x, subPatterns (g x) = subPatterns x) →
  option_Forall2 sameIdentity (deref self q) (deref (update g r self) q).
Proof.
  intros Hid Hsubs. revert q self.
  induction r as [|i r IH]; intros q self; cbn [update].
  - destruct q as [|j q]; cbn [deref].
    + by constructor.
    + rewrite Hsubs. apply option_sameIdentity_refl.
  - destruct q as [|j q]; cbn [deref].
    + constructor. destruct self. repeat split; try done.
      cbn [subPatterns set_subPatterns]. by rewrite length_alter.
    + destruct self as [? ? ? ? ? ? ? subs]. cbn [subPatterns set_subPatterns].
      destruct (decide (i = j)) as [->|Hij].
      * rewrite list_lookup_alter_eq.
        destruct (subs !! j) as [p|]; [apply IH|constructor].
      * rewrite list_lookup_alter_ne by done. apply option_sameIdentity_refl.
Qed.

Lemma derefForest_updateAt_identity event o _patterns q :
  option_Forall2 sameIdentity (derefForest _patterns q)
    (derefForest (updateAt (recorded event) o _patterns) q).
Proof.
  destruct o as [[|i r]|]; cbn [updateAt updateForest];
    try apply option_sameIdentity_refl.
  destruct q as [|j q]; cbn [derefForest]; [constructor|].
  destruct (decide (i = j)) as [->|Hij].
  - rewrite list_lookup_alter_eq. destruct (_patterns !! j) as [p|]; [|constructor].
    apply deref_update_identity;
      [apply recorded_sameIdentity|apply recorded_subPatterns].
  - rewrite list_lookup_alter_ne by done. apply option_sameIdentity_refl.
Qed.

Lemma updateAt_length g o (_patterns : list EventPattern) :
  length (updateAt g o _patterns) = length _patterns.
Proof.
  destruct o as [[|i r]|]; cbn [updateAt updateForest]; try done.
  apply length_alter.
Qed.

(** X4: matching never reshapes the forest: after a stream of events the
    forest has the same number of roots, a reference leads to a node
    afterwards exactly when it did before, and that node has the ids, the
    regex, the group names and the number of children it had. *)
Theorem mainLoop_keeps_shape typeFilter _patterns parsed :
  Forall pattern_ok _patterns →
  ∃ _patterns' log,
    mainLoop typeFilter _patterns parsed = Returned _patterns' log ∧
    length _patterns' = length _patterns ∧
    ∀ q, option_Forall2 sameIdentity (derefForest _patterns q)
           (derefForest _patterns' q).
Proof.
  intros Hok.
  apply (mainLoop_steps typeFilter _patterns
           (λ f es f',
              length f' = length f ∧
              ∀ q, option_Forall2 sameIdentity (derefForest f q)
                     (derefForest f' q))); [| |done|done].
  - intros f. split; [done|]. intros q. apply option_sameIdentity_refl.
  - intros f e es f' _ _ [Hlen HQ]. split.
    + by rewrite Hlen, updateAt_length.
    + intros q. eapply option_sameIdentity_trans; [|apply HQ].
      apply derefForest_updateAt_identity.
Qed.

Lemma recorded_grows event x i s :
  self_ok x → groupValues x !! i = Some s →
  ∃ s', groupValues (recorded event x) !! i = Some s' ∧ s ⊆ s'.
Proof.
  intros Hx Hs.
  destruct (Re.match_ (regEx x) (Event.message event)) as [m|] eqn:Hm.
  - pose proof Hx as (Hnames & Hlen & _ & _ & Hkeys). specialize (Hkeys _ _ Hm).
    destruct (lookup_lt_is_Some_2 (Re.groupdict m) i) as [[g v] Hv].
    { rewrite <- (length_fmap fst), Hkeys, <- Hnames, <- Hlen.
      by eapply lookup_lt_Some. }
    destruct (recorded_groupValues event x m i g v Hx Hm Hv)
      as (old & Hold & Hnew).
    exists ({[captured v]} ∪ old). split; [done|].
    assert (old = s) as -> by congruence. apply union_subseteq_r.
  - exists s. unfold recorded. by rewrite Hm.
Qed.

(** X5: a value set never loses a value: after a stream of events every
    value set of every node contains all the values it held before. *)
Theorem mainLoop_values_grow typeFilter _patterns parsed :
  Forall pattern_ok _patterns →
  ∃ _patterns' log,
    mainLoop typeFilter _patterns parsed = Returned _patterns' log ∧
    ∀ q n, derefForest _patterns q = Some n →
      ∃ n', derefForest _patterns' q = Some n' ∧
            ∀ i s, groupValues n !! i = Some s →
              ∃ s', groupValues n' !! i = Some s' ∧ s ⊆ s'.
Proof.
  intros Hok.
  apply (mainLoop_steps typeFilter _patterns
           (λ f es f', ∀ q n, derefForest f q = Some n →
              ∃ n', derefForest f' q = Some n' ∧
                    ∀ i s, groupValues n !! i = Some s →
                      ∃ s', groupValues n' !! i = Some s' ∧ s ⊆ s'));
    [| |done|done].
  - intros f q n Hq. exists n. split; [done|]. intros i s Hs. by exists s.
  - intros f e es f' Hf _ HQ q n Hq.
    destruct (derefForest_updateAt (recorded e)
                (spec_deepest typeFilter _patterns e) f q n)
      as (n1 & Hn1 & Hhit & Hmiss); [apply recorded_subPatterns|done|].
    destruct (HQ q n1 Hn1) as (n' & Hn' & Hgrow). exists n'. split; [done|].
    intros i s Hs.
    assert (∃ s1, groupValues n1 !! i = Some s1 ∧ s ⊆ s1) as (s1 & Hs1 & Hsub).
    { destruct (decide (spec_deepest typeFilter _patterns e = Some q))
        as [Hdec|Hdec].
      - rewrite (Hhit Hdec). apply recorded_grows; [|done].
        by apply pattern_ok_self, (derefForest_ok _ _ _ Hf Hq).
      - destruct (Hmiss Hdec) as [_ <-]. by exists s. }
    destruct (Hgrow i s1 Hs1) as (s' & Hs' & Hsub'). exists s'.
    split; [done|]. by etrans.
Qed.

Lemma spec_accept_prefix msg self q k :
  spec_accept msg self = Some q →
  ∃ a, deref self (take k q) = Some a ∧ is_Some (Re.match_ (regEx a) msg).
Proof.
  intros Hroute. rewrite <- (take_drop k q) in Hroute.
  apply spec_accept_app in Hroute as (a & Ha & Hacc).
  exists a. split; [done|]. apply spec_accept_is_Some. eauto.
Qed.

(** X6: a node is credited with an event only when the event passes the
    type filter, the regexes of the node's root and of all ancestors on the
    way down to it match the message, its own regex matches, and the regex
    of none of its children does. *)
Theorem credited_node_matches typeFilter _patterns event _patterns' r log q n n' :
  Forall pattern_ok _patterns →
  mainMatchEvent typeFilter _patterns event = Returned (_patterns', r) log →
  derefForest _patterns q = Some n →
  derefForest _patterns' q = Some n' →
  matchCount n' ≠ matchCount n →
  filteredOut typeFilter event = false ∧
  (∀ k, 0 < k → ∃ a, derefForest _patterns (take k q) = Some a ∧
                      is_Some (Re.match_ (regEx a) (Event.message event))) ∧
  is_Some (Re.match_ (regEx n) (Event.message event)) ∧
  Forall (λ c, Re.match_ (regEx c) (Event.message event) = None)
    (subPatterns n).
Proof.
  intros Hok Hrun Hq Hq' Hcount.
  destruct (mainMatchEvent_step typeFilter _patterns event Hok)
    as (log0 & Hrun0 & Hstep). cbv zeta in *.
  rewrite Hrun0 in Hrun. injection Hrun as <- _ _.
  destruct (Hstep q n Hq) as (n1 & Hn1 & _ & Hmiss).
  assert (n1 = n') as -> by congruence.
  destruct (decide (spec_deepest typeFilter _patterns event = Some q))
    as [Hroute|Hne].
  2:{ destruct Hcount. by apply sameState_matchCount, Hmiss. }
  destruct (spec_deepest_deref _ _ _ _ Hroute) as (n0 & Hn0 & Hm & Hkids).
  assert (n0 = n) as -> by congruence.
  destruct (spec_deepest_Some _ _ _ _ Hroute)
    as (Hpass & i & p & r' & -> & Hi & Hacc).
  repeat split; try done.
  intros [|k] Hk; [lia|]. cbn [take derefForest]. rewrite Hi.
  by apply spec_accept_prefix.
Qed.

(** * More of the tree assembly *)

Lemma allNodes_deref P self q n :
  allNodes P self → deref self q = Some n → P n.
Proof.
  revert self. induction q as [|i q IH]; intros self Hall; cbn [deref].
  - intros [= <-]. by inversion Hall.
  - destruct (subPatterns self !! i) as [p|] eqn:Hi; [|done].
    apply IH. inversion Hall as [? _ Hsubs]. by eapply Forall_lookup_1.
Qed.

Lemma allNodes_derefForest P _patterns q n :
  Forall (allNodes P) _patterns → derefForest _patterns q = Some n → P n.
Proof.
  intros Hall. destruct q as [|i q]; [done|]. cbn [derefForest].
  destruct (_patterns !! i) as [p|] eqn:Hi; [|done].
  apply allNodes_deref. by eapply Forall_lookup_1.
Qed.

Lemma update_append_allNodes (P : EventPattern → Prop) pattern r x :
  (∀ y subs, P y → P (set_subPatterns y subs)) →
  allNodes P pattern → allNodes P x →
  allNodes P (update (appendSubPattern pattern) r x).
Proof.
  intros HP Hpat. revert x. induction r as [|i r IH]; intros x Hx; cbn [update].
  - inversion Hx as [? Hself Hsubs]. constructor.
    + by apply HP.
    + destruct x. cbn [appendSubPattern set_subPatterns subPatterns] in *.
      apply Forall_app. split; [done|]. by constructor.
  - inversion Hx as [? Hself Hsubs]. constructor.
    + by apply HP.
    + destruct x. cbn [set_subPatterns subPatterns] in *.
      apply Forall_alter; [done|]. intros p _ Hp. by apply IH.
Qed.

Lemma loadCsvFile_allNodes (P : EventPattern → Prop) compile rows :
  (∀ y subs, P y → P (set_subPatterns y subs)) →
  (∀ name regEx parent re,
     compile regEx = Some re →
     P (mkEventPattern name name re (Re.groupindex re)
          ((λ _, ∅) <$> Re.groupindex re) parent [] [])) →
  ∀ _patterns _patterns' log,
    Forall (allNodes P) _patterns →
    loadCsvFile compile _patterns rows = Returned _patterns' log →
    Forall (allNodes P) _patterns'.
Proof.
  intros HP Hnew. induction rows as [|row rows IH]; intros _patterns final log Hall.
  { by intros [= <- _]. }
  cbn [loadCsvFile].
  destruct (compile (MessageRegEx row)) as [re|] eqn:Hre.
  2:{ unfold __init__, newPattern. by rewrite Hre. }
  rewrite (init_compiled _ _ _ _ _ _ Hre). cbv zeta. rewrite bind_ret.
  apply IH.
  assert (allNodes P (mkEventPattern (Name row) (Name row) re (Re.groupindex re)
                        ((λ _, ∅) <$> Re.groupindex re) (parent row) [] []))
    as Hself.
  { constructor; [by apply (Hnew _ (MessageRegEx row))|by constructor]. }
  destruct (0 <? String.length (parent row)).
  - destruct (findParent _ _) as [[|i r]|]; cbn [updateAt updateForest]; try done.
    apply Forall_alter; [done|]. intros p _ Hp. by apply update_append_allNodes.
  - apply Forall_app. split; [done|]. by constructor.
Qed.

(** X7: a pattern whose non-empty parent id is the id of no node of the
    forest when it is constructed is dropped without a trace: [__init__]
    hands the forest back as it was and nothing is raised. *)
Theorem init_unresolved_parent_dropped compile _patterns name regEx parent re :
  compile regEx = Some re →
  parent ≠ "" →
  (∀ q n, derefForest _patterns q = Some n → patternId n ≠ parent) →
  __init__ compile _patterns name regEx parent = Returned _patterns [].
Proof.
  intros Hre Hparent Hnone.
  rewrite (init_compiled _ _ _ _ _ _ Hre). cbv zeta.
  assert ((0 <? String.length parent) = true) as ->.
  { destruct parent; [done|]. done. }
  destruct (findParent _patterns parent) as [r|] eqn:Hr; [|done].
  destruct (findParent_sound _ _ _ Hr) as (n & Hn & Hid).
  by destruct (Hnone _ _ Hn).
Qed.

Lemma deref_append_other pattern r q self n :
  q ≠ r → deref self q = Some n →
  ∃ n', deref (update (appendSubPattern pattern) r self) q = Some n' ∧
        sameState n n' ∧ sameIdentity n n'.
Proof.
  revert q self. induction r as [|i r IH]; intros q self Hne Hq.
  - destruct q as [|j q]; [done|]. cbn [deref update] in *.
    destruct self as [? ? ? ? ? ? ? subs].
    cbn [subPatterns appendSubPattern set_subPatterns] in *.
    destruct (subs !! j) as [p|] eqn:Hj; [|done].
    rewrite (lookup_app_l_Some _ _ _ _ Hj). exists n.
    split; [done|]. split; [apply sameState_refl|apply sameIdentity_refl].
  - destruct q as [|j q]; cbn [deref update] in *.
    + injection Hq as <-. eexists. split; [done|]. destruct self.
      split; [done|]. repeat split; try done.
      cbn [subPatterns set_subPatterns]. by rewrite length_alter.
    + destruct self as [? ? ? ? ? ? ? subs]. cbn [subPatterns set_subPatterns] in *.
      destruct (decide (i = j)) as [->|Hij].
      * rewrite list_lookup_alter_eq. destruct (subs !! j) as [p|]; [|done].
        apply IH; [congruence|done].
      * rewrite list_lookup_alter_ne by done. exists n.
        split; [done|]. split; [apply sameState_refl|apply sameIdentity_refl].
Qed.

Lemma derefForest_append_other pattern r q _patterns n :
  q ≠ r → derefForest _patterns q = Some n →
  ∃ n', derefForest (updateForest (appendSubPattern pattern) r _patterns) q
        = Some n' ∧ sameState n n' ∧ sameIdentity n n'.
Proof.
  intros Hne Hq. destruct r as [|i r].
  { exists n. split; [done|]. split; [apply sameState_refl|apply sameIdentity_refl]. }
  destruct q as [|j q]; [done|]. cbn [derefForest updateForest] in *.
  destruct (decide (i = j)) as [->|Hij].
  - rewrite list_lookup_alter_eq. destruct (_patterns !! j) as [p|]; [|done].
    apply deref_append_other; [congruence|done].
  - rewrite list_lookup_alter_ne by done. exists n.
    split; [done|]. split; [apply sameState_refl|apply sameIdentity_refl].
Qed.

(** X8: [addSubPattern] returns [True] exactly when some node of the
    forest, at any depth, has the id the pattern names as its parent.  When
    it returns [False] the forest is unchanged; when it returns [True] the
    pattern has become the last child of one such node and every other node
    keeps its state and its number of children. *)
Theorem addSubPattern_result _patterns pattern :
  ((addSubPattern _patterns pattern).2 = true ↔
   ∃ q n, derefForest _patterns q = Some n ∧ patternId n = parentId pattern) ∧
  ((addSubPattern _patterns pattern).2 = false →
   (addSubPattern _patterns pattern).1 = _patterns) ∧
  ((addSubPattern _patterns pattern).2 = true →
   ∃ q n,
     derefForest _patterns q = Some n ∧ patternId n = parentId pattern ∧
     derefForest (addSubPattern _patterns pattern).1 q
     = Some (set_subPatterns n (subPatterns n ++ [pattern])) ∧
     ∀ q' n0, q' ≠ q → derefForest _patterns q' = Some n0 →
       ∃ n0', derefForest (addSubPattern _patterns pattern).1 q' = Some n0' ∧
              sameState n0 n0' ∧ sameIdentity n0 n0').
Proof.
  rewrite addSubPattern_findParent. cbn [fst snd].
  destruct (findParent _patterns (parentId pattern)) as [r|] eqn:Hr.
  - destruct (findParent_sound _ _ _ Hr) as (n & Hn & Hid).
    split; [|split].
    + split; [eauto|]. intros _. apply bool_decide_eq_true. eauto.
    + intros Hfalse. apply bool_decide_eq_false in Hfalse. destruct Hfalse. eauto.
    + intros _. exists r, n. split; [done|]. split; [done|]. split.
      * by apply (derefForest_update_same (appendSubPattern pattern)).
      * intros q' n0 Hne Hq'. by apply derefForest_append_other.
  - split; [|split].
    + split.
      * intros Htrue. apply bool_decide_eq_true in Htrue. by destruct Htrue.
      * intros (q & n & Hq & Hid).
        destruct (findParent_complete _ _ _ _ Hq Hid) as [? ?]. congruence.
    + done.
    + intros Htrue. apply bool_decide_eq_true in Htrue. by destruct Htrue.
Qed.

Lemma findAmong_nonempty find id siblings r :
  findAmong find id siblings = Some r → r ≠ [].
Proof.
  revert r. induction siblings as [|p rest IH]; intros r; [done|].
  cbn [findAmong]. destruct (String.eqb _ _); [by intros [= <-]|].
  destruct (find p); [by intros [= <-]|].
  destruct (findAmong find id rest) as [[|i r']|]; [|by intros [= <-]|done].
  by destruct (IH [] eq_refl).
Qed.

(** X9: [findSubPatternWithId] looks below the pattern only: what it
    returns is a proper descendant with the id asked for, never the pattern
    itself, and it returns [None] exactly when no proper descendant has that
    id. *)
Theorem findSubPatternWithId_descendant pattern id :
  match findSubPatternWithId pattern id with
  | Some r => r ≠ [] ∧ ∃ n, deref pattern r = Some n ∧ patternId n = id
  | None => ∀ q n, q ≠ [] → deref pattern q = Some n → patternId n ≠ id
  end.
Proof.
  destruct (findSubPatternWithId pattern id) as [r|] eqn:Hr.
  - split; [|by apply findSubPatternWithId_sound].
    rewrite findSubPatternWithId_unfold in Hr. by eapply findAmong_nonempty.
  - intros q n Hq Hn Hid.
    destruct (findSubPatternWithId_complete id pattern q n Hq Hn Hid) as [? ?].
    congruence.
Qed.

Lemma findAmong_first find id siblings i rest :
  Forall (λ p, ∀ q n, q ≠ [] → deref p q = Some n → patternId n = id →
            is_Some (find p)) siblings →
  findAmong find id siblings = Some (i :: rest) →
  (∀ j p q n, j < i → siblings !! j = Some p → deref p q = Some n →
     patternId n ≠ id) ∧
  (∀ p, siblings !! i = Some p → patternId p = id → rest = []).
Proof.
  intros Hfind. revert i rest.
  induction Hfind as [|p0 siblings Hp0 _ IH]; intros i rest; [done|].
  cbn [findAmong]. destruct (String.eqb_spec (patternId p0) id) as [Hid|Hne].
  { intros [= <- <-]. split; [lia|done]. }
  destruct (find p0) as [sp|] eqn:Hsp.
  { intros [= <- <-]. split; [lia|]. by intros p [= <-]. }
  destruct (findAmong find id siblings) as [[|i' r']|] eqn:Hrest; [done| |done].
  intros [= <- <-]. destruct (IH i' r' eq_refl) as [Hbefore Hroot]. split.
  - intros [|j] p q n Hj Hp Hq; cbn in Hp.
    + injection Hp as <-. destruct q as [|k q].
      * by injection Hq as <-.
      * intros Hn. destruct (Hp0 (k :: q) n) as [? ?]; [done..|congruence].
    + apply (Hbefore j p q n); [lia|done..].
  - intros p Hp. by apply Hroot.
Qed.

(** X10: among several nodes with the wanted id, the search of
    [addSubPattern] settles on the earliest root whose tree holds one: no
    node of an earlier root, at any depth, has the id, and when the chosen
    root has the id itself the pattern is attached to that root and not to a
    node below it. *)
Theorem findParent_first_root _patterns id i rest :
  findParent _patterns id = Some (i :: rest) →
  (∀ j p q n, j < i → _patterns !! j = Some p → deref p q = Some n →
     patternId n ≠ id) ∧
  (∀ p, _patterns !! i = Some p → patternId p = id → rest = []).
Proof.
  apply findAmong_first, Forall_forall. intros p _ q n.
  apply findSubPatternWithId_complete.
Qed.

(** X11: one regex that does not compile is fatal for the whole pattern
    file: [loadCsvFile] raises the error of [re.compile], whatever the rows
    before and after it are, and no forest comes back. *)
Theorem loadCsvFile_bad_regex compile _patterns rows :
  Exists (λ row, compile (MessageRegEx row) = None) rows →
  loadCsvFile compile _patterns rows = Raised ReError.
Proof.
  intros Hbad. revert _patterns.
  induction Hbad as [row rows Hrow|row rows _ IH]; intros _patterns;
    cbn [loadCsvFile].
  - unfold __init__, newPattern. by rewrite Hrow.
  - destruct (compile (MessageRegEx row)) as [re|] eqn:Hre.
    + rewrite (init_compiled _ _ _ _ _ _ Hre). cbv zeta.
      by rewrite bind_ret, IH.
    + unfold __init__, newPattern. by rewrite Hre.
Qed.

(** X12: loading leaves every pattern as its constructor set it up: every
    node of the forest built from a pattern file has no event, hence
    matchCount 0, the group names of its regex, one empty value set for each
    of them, and its name as id. *)
Theorem loadCsvFile_asConstructed compile rows _patterns log :
  loadCsvFile compile [] rows = Returned _patterns log →
  ∀ q n, derefForest _patterns q = Some n →
    asConstructed n ∧ matchCount n = 0 ∧
    length (groupValues n) = length (Re.groupindex (regEx n)) ∧
    Forall (λ s, s = ∅) (groupValues n).
Proof.
  intros Hload q n Hq.
  assert (asConstructed n) as Hn.
  { eapply allNodes_derefForest; [|exact Hq].
    eapply (loadCsvFile_allNodes asConstructed compile rows); [| | |exact Hload].
    - intros y subs Hy. by destruct y.
    - intros name regEx parent re _. by repeat split.
    - constructor. }
  split; [done|]. destruct Hn as (Hev & Hnames & Hvalues & _).
  unfold matchCount. rewrite Hev, Hvalues, length_fmap, Hnames.
  repeat split; try done. apply Forall_fmap, Forall_true. done.
Qed.

Lemma update_append_ids pattern r x :
  patternId (update (appendSubPattern pattern) r x) = patternId x ∧
  parentId (update (appendSubPattern pattern) r x) = parentId x.
Proof. by destruct r, x. Qed.

Lemma update_append_linked pattern r x n :
  deref x r = Some n → patternId n = parentId pattern →
  parentId pattern ≠ "" → linked pattern → linked x →
  linked (update (appendSubPattern pattern) r x).
Proof.
  intros Hn Hid Hne Hpat. revert x Hn.
  induction r as [|i r IH]; intros x Hn Hx; cbn [update deref] in *.
  - injection Hn as ->. inversion Hx as [? Hkids Hsubs]. destruct n.
    constructor; cbn [appendSubPattern set_subPatterns subPatterns patternId] in *.
    + apply Forall_app. split; [done|]. by constructor.
    + apply Forall_app. split; [done|]. by constructor.
  - inversion Hx as [? Hkids Hsubs].
    destruct x as [? ? ? ? ? ? ? subs].
    cbn [set_subPatterns subPatterns patternId] in *.
    destruct (subs !! i) as [p|] eqn:Hi; [|done].
    constructor; cbn [set_subPatterns subPatterns patternId].
    + apply Forall_alter; [done|]. intros c _ Hc.
      by destruct (update_append_ids pattern r c) as [_ ->].
    + apply Forall_alter; [done|]. intros c Hc Hlinked.
      apply IH; [congruence|done].
Qed.

Lemma loadCsvFile_linked_forest compile rows :
  ∀ _patterns _patterns' log,
    Forall (λ p, parentId p = "" ∧ linked p) _patterns →
    loadCsvFile compile _patterns rows = Returned _patterns' log →
    Forall (λ p, parentId p = "" ∧ linked p) _patterns'.
Proof.
  induction rows as [|row rows IH]; intros _patterns final log Hall.
  { by intros [= <- _]. }
  cbn [loadCsvFile].
  destruct (compile (MessageRegEx row)) as [re|] eqn:Hre.
  2:{ unfold __init__, newPattern. by rewrite Hre. }
  rewrite (init_compiled _ _ _ _ _ _ Hre). cbv zeta. rewrite bind_ret.
  apply IH.
  set (self := mkEventPattern (Name row) (Name row) re (Re.groupindex re)
                 ((λ _, ∅) <$> Re.groupindex re) (parent row) [] []).
  assert (linked self) as Hself by (by constructor).
  destruct (0 <? String.length (parent row)) eqn:Hlen.
  - destruct (findParent _patterns (parent row)) as [[|i r]|] eqn:Hr;
      cbn [updateAt updateForest]; try done.
    destruct (findParent_sound _ _ _ Hr) as (n & Hn & Hid).
    cbn [derefForest] in Hn.
    apply Forall_alter; [done|]. intros p Hp [Hroot Hlinked].
    rewrite Hp in Hn.
    destruct (update_append_ids self r p) as [_ ->]. split; [done|].
    apply (update_append_linked self r p n); try done.
    cbn [parentId self]. intros Hempty. by rewrite Hempty in Hlen.
  - apply Forall_app. split; [done|]. constructor; [|constructor].
    split; [|done]. cbn. by destruct (parent row).
Qed.

(** X13: in the forest built from a pattern file every root has an empty
    parent id, and every other node hangs directly under a node whose id is
    its own, non-empty, parent id. *)
Theorem loadCsvFile_children_under_parent compile rows _patterns log :
  loadCsvFile compile [] rows = Returned _patterns log →
  (∀ i p, _patterns !! i = Some p → parentId p = "") ∧
  (∀ q n k c, derefForest _patterns q = Some n → subPatterns n !! k = Some c →
     parentId c = patternId n ∧ parentId c ≠ "").
Proof.
  intros Hload.
  pose proof (loadCsvFile_linked_forest compile rows [] _patterns log
                (Forall_nil_2 _) Hload) as Hall.
  split.
  - intros i p Hp. by destruct (Forall_lookup_1 _ _ _ _ Hall Hp).
  - intros [|i q] n k c Hn Hc; [done|]. cbn [derefForest] in Hn.
    destruct (_patterns !! i) as [p|] eqn:Hp; [|done].
    destruct (Forall_lookup_1 _ _ _ _ Hall Hp) as [_ Hlinked].
    clear Hp Hall. revert p Hn Hlinked.
    induction q as [|j q IH]; intros p Hn Hlinked; cbn [deref] in Hn.
    + injection Hn as ->. inversion Hlinked as [? Hkids _].
      by apply (Forall_lookup_1 _ _ _ _ Hkids Hc).
    + destruct (subPatterns p !! j) as [p'|] eqn:Hj; [|done].
      apply (IH p' Hn). inversion Hlinked as [? _ Hsubs].
      by apply (Forall_lookup_1 _ _ _ _ Hsubs Hj).
Qed.

(** * More of the report *)

Lemma append_assoc (a b c : string) : (a +:+ b) +:+ c = a +:+ (b +:+ c).
Proof.
  induction a as [|x a IH]; [done|].
  change (String x ((a +:+ b) +:+ c) = String x (a +:+ (b +:+ c))).
  by rewrite IH.
Qed.

Lemma groupLines_from showDetail iter values i names :
  Forall (λ g, g ≠ "") names → i + length names ≤ length values →
  groupLines showDetail iter values i names
  = Returned (groupLinesOf iter
                (zip (filter (λ n, hiddenGroup showDetail n = false) names)
                   (drop i values))) [].
Proof.
  intros Hne. revert i. induction Hne as [|g names Hg _ IH]; intros i Hlen.
  - done.
  - cbn [groupLines]. rewrite filter_cons. destruct g as [|c g]; [done|].
    cbn [hiddenGroup]. destruct (Ascii.eqb c "_" && negb showDetail).
    + rewrite decide_False by done. apply IH. simpl in Hlen. lia.
    + rewrite decide_True by done.
      destruct (lookup_lt_is_Some_2 values i) as [s Hs]; [simpl in Hlen; lia|].
      rewrite Hs, (IH (S i)) by (simpl in Hlen; lia).
      rewrite bind_ret, (drop_S _ _ _ Hs).
      cbn [zip zip_with groupLinesOf foldr fst snd]. unfold groupLine.
      by rewrite !append_assoc.
Qed.

(** X14: in every mode the group lines of a node pair the names that are
    not hidden, in order, with the value sets taken from the front of
    [groupValues]: the k-th line shows the k-th visible name with the k-th
    value set, and the value sets at the end, as many as there are hidden
    names, are not shown. *)
Theorem groupLines_pairs_visible_names showDetail iter values names :
  Forall (λ g, g ≠ "") names → length names ≤ length values →
  groupLines showDetail iter values 0 names
  = Returned (groupLinesOf iter
                (zip (filter (λ n, hiddenGroup showDetail n = false) names)
                   values)) [].
Proof.
  intros Hne Hlen. by rewrite groupLines_from.
Qed.

(** X15: when no group is hidden, because detail mode is on or because no
    group name starts with an underscore, every group line shows a group
    name with the number of values and the values of that same group, in the
    order of the groups. *)
Theorem groupLines_own_values showDetail iter values names :
  Forall (λ g, g ≠ "") names → length names ≤ length values →
  showDetail = true ∨ Forall (λ n, hiddenGroup false n = false) names →
  groupLines showDetail iter values 0 names
  = Returned (groupLinesOf iter (zip names values)) [].
Proof.
  intros Hne Hlen Hshown. rewrite groupLines_from by done. cbn [drop].
  do 3 f_equal. clear Hne Hlen. induction names as [|n names IH]; [done|].
  rewrite filter_cons. rewrite decide_True.
  - f_equal. apply IH. destruct Hshown as [?|Hall]; [by left|right].
    by inversion Hall.
  - destruct Hshown as [->|Hall].
    + destruct n; [done|]. cbn [hiddenGroup negb]. apply andb_false_r.
    + inversion Hall as [|? ? Hn _]; subst. destruct n as [|c n]; [done|].
      cbn [hiddenGroup negb] in *. rewrite andb_true_r in Hn. by rewrite Hn.
Qed.

Lemma str_unfold showDetail iter self :
  __str__ showDetail iter self
  = if (length (events self) =? 0) && negb showDetail
       && (length (subPatterns self) =? 0)
    then mret ""
    else
      groups ← groupLines showDetail iter (groupValues self) 0 (groupNames self);
      subs ← subPatternLines (__str__ showDetail iter) (subPatterns self);
      mret (("*** " +:+ format_4d (length (events self)) +:+ "x " +:+ name self
             +:+ " - " +:+ Re.pattern (regEx self) +:+ nl) +:+ groups +:+ subs).
Proof. by destruct self. Qed.

Lemma subPatternLines_returns showDetail iter subs :
  Forall (λ p, ∃ s, __str__ showDetail iter p = Returned s []) subs →
  ∃ s, subPatternLines (__str__ showDetail iter) subs = Returned s [].
Proof.
  induction 1 as [|p subs [s Hs] _ [more IH]]; [by exists ""|].
  change (subPatternLines (__str__ showDetail iter) (p :: subs))
    with (s ← __str__ showDetail iter p;
          more ← subPatternLines (__str__ showDetail iter) subs;
          mret (s +:+ more)).
  rewrite Hs, bind_ret, IH, bind_ret. by eexists.
Qed.

(** X16: on a well-formed tree [__str__] raises nothing, and the text it
    returns is empty exactly when the node has no event, has no children and
    detail mode is off; a node with children is reported even with the
    count 0. *)
Theorem str_empty_iff showDetail iter self :
  pattern_ok self →
  ∃ text,
    __str__ showDetail iter self = Returned text [] ∧
    (text = "" ↔
     matchCount self = 0 ∧ showDetail = false ∧ subPatterns self = []).
Proof.
  induction self as [self IH] using EventPattern_tree_ind. intros Hok.
  rewrite str_unfold. unfold matchCount.
  destruct (length (events self) =? 0) eqn:Hcount;
    [apply Nat.eqb_eq in Hcount|apply Nat.eqb_neq in Hcount].
  - destruct showDetail; cbn [negb andb].
    + destruct (pattern_ok_self _ Hok) as (Hnames & Hlen & _ & Hne & _).
      rewrite groupLines_from; [|by rewrite Hnames|lia]. rewrite bind_ret.
      destruct (subPatternLines_returns true iter (subPatterns self)) as [s ->].
      { apply Forall_forall. intros p Hp.
        destruct (proj1 (Forall_forall _ _) IH p Hp) as (t & Ht & _); [|eauto].
        by eapply (proj1 (Forall_forall _ _) (pattern_ok_subs _ Hok)). }
      rewrite bind_ret. eexists. split; [done|]. split; [done|].
      by intros (_ & ? & _).
    + destruct (subPatterns self) as [|c subs] eqn:Hsubs.
      * exists "". by repeat split.
      * cbn [length Nat.eqb].
        destruct (pattern_ok_self _ Hok) as (Hnames & Hlen & _ & Hne & _).
        rewrite groupLines_from; [|by rewrite Hnames|lia]. rewrite bind_ret.
        destruct (subPatternLines_returns false iter (c :: subs)) as [s ->].
        { apply Forall_forall. intros p Hp.
          destruct (proj1 (Forall_forall _ _) IH p Hp) as (t & Ht & _); [|eauto].
          eapply (proj1 (Forall_forall _ _) (pattern_ok_subs _ Hok)).
          by rewrite Hsubs. }
        rewrite bind_ret. eexists. split; [done|]. split; [done|].
        by intros (_ & _ & ?).
  - cbn [andb].
    destruct (pattern_ok_self _ Hok) as (Hnames & Hlen & _ & Hne & _).
    rewrite groupLines_from; [|by rewrite Hnames|lia]. rewrite bind_ret.
    destruct (subPatternLines_returns showDetail iter (subPatterns self))
      as [s ->].
    { apply Forall_forall. intros p Hp.
      destruct (proj1 (Forall_forall _ _) IH p Hp) as (t & Ht & _); [|eauto].
      by eapply (proj1 (Forall_forall _ _) (pattern_ok_subs _ Hok)). }
    rewrite bind_ret. eexists. split; [done|]. split; [done|].
    by intros (? & _).
Qed.

(** C9, at a pattern file with the single root Sync and no event recorded:
    the root has matchCount 0 and no children, and [__str__] returns the
    empty text for it when detail mode is off, yet [printResults] writes a
    line for it, an empty one, so the report does not leave the node out
    entirely; with detail mode on the report has the node's line with the
    count 0 and the lines of its groups. *)
Theorem omitted_root_leaves_empty_line (iter : gset string → list string) :
  loadCsvFile exampleCompile [] syncRows = Returned [syncNode] [] ∧
  matchCount syncNode = 0 ∧ subPatterns syncNode = [] ∧
  __str__ false iter syncNode = Returned "" [] ∧
  printResults false iter [syncNode] = Returned nl [] ∧
  nl ≠ "" ∧
  __str__ true iter syncNode
  = Returned ("***    0x Sync - (?P<op>Sync)( (?P<obj>users))?" +:+ nl
              +:+ "  op (0): " +:+ nl +:+ "  obj (0): " +:+ nl) [].
Proof.
  split; [by vm_compute|]. split; [done|]. split; [done|].
  split; [done|]. split; [done|]. split; [done|]. by vm_compute.
Qed.

(** X17: a top-level pattern that the report leaves out still costs a
    line: for a forest of roots without events and without children,
    [printResults] in default mode prints one empty line for each root. *)
Theorem printResults_empty_lines iter _patterns :
  Forall (λ p, matchCount p = 0 ∧ subPatterns p = []) _patterns →
  printResults false iter _patterns = Returned (emptyLines (length _patterns)) [].
Proof.
  induction 1 as [|p rest [Hcount Hleaf] _ IH]; [done|].
  cbn [printResults length emptyLines]. rewrite str_unfold.
  unfold matchCount in Hcount. rewrite Hcount, Hleaf. cbn [length Nat.eqb andb negb].
  rewrite mret_Returned, bind_ret, IH, bind_ret. done.
Qed.

(** * The command line *)

Section CommandLineProofs.
Variable lower : string → string.
Variable glob : string → list string.

Ltac arg_cases arg :=
  unfold argStep;
  repeat match goal with
         | |- context [String.eqb arg ?s] => destruct (String.eqb_spec arg s)
         | |- context [found ?s ?a] => destruct (found s a) eqn:?
         end;
  cbn [negb globals files users printed].

(** X18: the argument after [-start] is stored as the start bound, and the
    argument after [-end] as the end bound, whatever it is: it switches
    nothing on and is neither a pattern file, a log file nor a user, even
    when it reads like an option or a file name. *)
Theorem bound_value_taken_literally st x :
  Globals.start (globals st) ≠ Globals.Awaited →
  Globals.end_ (globals st) ≠ Globals.Awaited →
  (globals (argStep lower glob (argStep lower glob st "-start") x)
   = Globals.mk (Globals.showUsers (globals st)) (Globals.Given x)
       (Globals.end_ (globals st)) (Globals.onlyFirst (globals st))
       (Globals.eventPatternFile (globals st)) (Globals.showDetail (globals st))
       (Globals.typeFilter (globals st)) (Globals.debug (globals st)) ∧
   files (argStep lower glob (argStep lower glob st "-start") x) = files st ∧
   users (argStep lower glob (argStep lower glob st "-start") x) = users st) ∧
  (globals (argStep lower glob (argStep lower glob st "-end") x)
   = Globals.mk (Globals.showUsers (globals st)) (Globals.start (globals st))
       (Globals.Given x) (Globals.onlyFirst (globals st))
       (Globals.eventPatternFile (globals st)) (Globals.showDetail (globals st))
       (Globals.typeFilter (globals st)) (Globals.debug (globals st)) ∧
   files (argStep lower glob (argStep lower glob st "-end") x) = files st ∧
   users (argStep lower glob (argStep lower glob st "-end") x) = users st).
Proof.
  intros Hstart Hend. destruct st as [[su s e o f d t dbg] fs us out].
  cbn [globals Globals.start Globals.end_] in *.
  destruct s, e; try done; by vm_compute.
Qed.

Lemma argStep_eventPatternFile st arg :
  is_Some (Globals.eventPatternFile (globals st)) →
  is_Some (Globals.eventPatternFile (globals (argStep lower glob st arg))).
Proof.
  intros Hsome. destruct st as [[su s e o f d t dbg] fs us out].
  cbn [globals Globals.eventPatternFile] in *.
  unfold argStep. cbn [globals Globals.start Globals.end_].
  destruct s, e; cbn [globals Globals.eventPatternFile]; try done;
    arg_cases arg; done.
Qed.

Lemma foldl_argStep_eventPatternFile args st :
  is_Some (Globals.eventPatternFile (globals st)) →
  is_Some (Globals.eventPatternFile (globals (foldl (argStep lower glob) st args))).
Proof.
  revert st. induction args as [|arg args IH]; intros st Hsome; [done|].
  cbn [foldl]. by apply IH, argStep_eventPatternFile.
Qed.

(** X19: the branch of [myMain] that gives up for want of a pattern file is
    never taken: when a pattern file is set on entry, as it is when the
    module is loaded, [myMain] always ends with a call of [mainLoop], and
    the list of files it passes is never empty. *)
Theorem myMain_always_runs g argv :
  is_Some (Globals.eventPatternFile g) →
  ∃ fs us, (myMain lower glob g argv).2 = Some (fs, us) ∧ fs ≠ [].
Proof.
  intros Hsome. unfold myMain.
  assert ((Z.of_nat (length argv) <? 0)%Z = false) as -> by (apply Z.ltb_ge; lia).
  cbn [snd]. unfold launch, parseArgs.
  destruct (foldl_argStep_eventPatternFile (drop 1 argv)
              (mkArgState g [] [] []) Hsome) as [f ->].
  destruct (files _) as [|x fs]; cbn [length Nat.ltb Nat.leb app].
  - by eexists _, _.
  - by eexists _, _.
Qed.

Lemma fileFrom_mono args args' f :
  args ⊆ args' → fileFrom glob args f → fileFrom glob args' f.
Proof.
  intros Hsub. destruct f as [a|l]; cbn.
  - intros (? & ? & ?). split; [by apply Hsub|done].
  - intros (a & ? & ? & ? & ?). exists a. split; [by apply Hsub|done].
Qed.

Lemma userFrom_mono args args' u :
  args ⊆ args' → userFrom lower args u → userFrom lower args' u.
Proof. intros Hsub (a & ? & ? & ?). exists a. split; [by apply Hsub|done]. Qed.

Lemma argStep_sources st arg :
  Forall (fileFrom glob [arg]) (drop (length (files st))
                             (files (argStep lower glob st arg))) ∧
  take (length (files st)) (files (argStep lower glob st arg)) = files st ∧
  Forall (userFrom lower [arg]) (drop (length (users st))
                             (users (argStep lower glob st arg))) ∧
  take (length (users st)) (users (argStep lower glob st arg)) = users st.
Proof.
  destruct st as [[su s e o f d t dbg] fs us out].
  unfold argStep. cbn [globals files users Globals.start Globals.end_].
  assert (∀ A (l : list A), drop (length l) l = []) as Hdrop
    by (intros; by apply drop_ge).
  assert (∀ A (l : list A), take (length l) l = l) as Htake
    by (intros; by apply take_ge).
  assert (∀ A (l : list A) x, drop (length l) (l ++ [x]) = [x]) as Hdrop1
    by (intros; by rewrite drop_app_length).
  assert (∀ A (l : list A) x, take (length l) (l ++ [x]) = l) as Htake1
    by (intros; by rewrite take_app_length).
  destruct s, e; cbn [files users]; rewrite ?Hdrop, ?Htake; try done;
    arg_cases arg; rewrite ?Hdrop, ?Htake, ?Hdrop1, ?Htake1;
    repeat split; try done; repeat constructor; cbn;
    try (eexists; repeat split; [|done..]); set_solver.
Qed.

Lemma foldl_argStep_sources args st :
  Forall (fileFrom glob args) (drop (length (files st))
                            (files (foldl (argStep lower glob) st args))) ∧
  take (length (files st)) (files (foldl (argStep lower glob) st args))
  = files st ∧
  Forall (userFrom lower args) (drop (length (users st))
                            (users (foldl (argStep lower glob) st args))) ∧
  take (length (users st)) (users (foldl (argStep lower glob) st args))
  = users st.
Proof.
  revert st. induction args as [|arg args IH]; intros st; cbn [foldl].
  { rewrite !drop_ge, !take_ge by done. by repeat split. }
  destruct (argStep_sources st arg) as (Hf1 & Hft1 & Hu1 & Hut1).
  destruct (IH (argStep lower glob st arg)) as (Hf2 & Hft2 & Hu2 & Hut2).
  set (st1 := argStep lower glob st arg) in *.
  set (st2 := foldl (argStep lower glob) st1 args) in *.
  assert (length (files st) ≤ length (files st1)) as Hlenf.
  { rewrite <- Hft1 at 1. rewrite length_take. lia. }
  assert (length (users st) ≤ length (users st1)) as Hlenu.
  { rewrite <- Hut1 at 1. rewrite length_take. lia. }
  assert (files st2 = files st1 ++ drop (length (files st1)) (files st2)) as Hcatf.
  { rewrite <- Hft2 at 1. by rewrite take_drop. }
  assert (users st2 = users st1 ++ drop (length (users st1)) (users st2)) as Hcatu.
  { rewrite <- Hut2 at 1. by rewrite take_drop. }
  split; [|split; [|split]].
  - rewrite Hcatf, drop_app_le by done. apply Forall_app. split.
    + eapply Forall_impl; [exact Hf1|]. intros f. apply fileFrom_mono. set_solver.
    + eapply Forall_impl; [exact Hf2|]. intros f. apply fileFrom_mono. set_solver.
  - rewrite Hcatf, take_app_le by done. done.
  - rewrite Hcatu, drop_app_le by done. apply Forall_app. split.
    + eapply Forall_impl; [exact Hu1|]. intros u. apply userFrom_mono. set_solver.
    + eapply Forall_impl; [exact Hu2|]. intros u. apply userFrom_mono. set_solver.
  - rewrite Hcatu, take_app_le by done. done.
Qed.

(** X20: only an argument with a dot in it can become a log file: every
    element of [files] after the loop is an argument that contains a dot and
    no star, or the list that [glob.glob] returned for an argument with a
    dot and a star, put in as one element; every user is the lower-case form
    of an argument without a dot. *)
Theorem parseArgs_sources g argv :
  Forall (fileFrom glob (drop 1 argv)) (files (parseArgs lower glob g argv)) ∧
  Forall (userFrom lower (drop 1 argv)) (users (parseArgs lower glob g argv)).
Proof.
  unfold parseArgs.
  destruct (foldl_argStep_sources (drop 1 argv) (mkArgState g [] [] []))
    as (Hf & _ & Hu & _).
  cbn [files users length drop] in *. by split.
Qed.

Lemma bool_decide_elem_cons (x a : string) (l : list string) :
  bool_decide (a = x) || bool_decide (x ∈ l) = bool_decide (x ∈ a :: l).
Proof.
  rewrite <- bool_decide_or. apply bool_decide_ext.
  rewrite elem_of_cons. naive_solver.
Qed.

Lemma argStep_switches st arg :
  Globals.start (globals st) ≠ Globals.Awaited →
  Globals.end_ (globals st) ≠ Globals.Awaited →
  arg ≠ "-start" → arg ≠ "-end" →
  let st' := argStep lower glob st arg in
  Globals.start (globals st') = Globals.start (globals st) ∧
  Globals.end_ (globals st') = Globals.end_ (globals st) ∧
  Globals.showDetail (globals st')
  = Globals.showDetail (globals st) || bool_decide (arg = "-showDetail") ∧
  Globals.debug (globals st')
  = Globals.debug (globals st) || bool_decide (arg = "-debug") ∧
  Globals.onlyFirst (globals st')
  = Globals.onlyFirst (globals st) || bool_decide (arg = "-onlyFirst") ∧
  Globals.typeFilter (globals st')
  = (if bool_decide (arg = "-error0") then Some 0%Z
     else if bool_decide (arg = "-error1") then Some 1%Z
     else Globals.typeFilter (globals st)).
Proof.
  intros Hstart Hend Hs He st'. subst st'.
  destruct st as [[su s e o f d t dbg] fs us out].
  cbn [globals Globals.start Globals.end_] in *.
  unfold argStep. cbn [globals Globals.start Globals.end_].
  destruct s, e; try done; arg_cases arg; subst;
    cbn [Globals.start Globals.end_ Globals.showDetail Globals.debug
         Globals.onlyFirst Globals.typeFilter];
    repeat (rewrite bool_decide_eq_false_2 by done);
    repeat (rewrite bool_decide_eq_true_2 by done);
    rewrite ?orb_false_r, ?orb_true_r; done.
Qed.

(** X21: switches do not depend on their position: when neither [-start]
    nor [-end] is among the arguments, detail mode, debug mode and
    [onlyFirst] are on after the loop exactly when they were on before or
    the argument list holds their option, anywhere in it. *)
Theorem switches_position_independent args st :
  Globals.start (globals st) ≠ Globals.Awaited →
  Globals.end_ (globals st) ≠ Globals.Awaited →
  "-start" ∉ args → "-end" ∉ args →
  Globals.showDetail (globals (foldl (argStep lower glob) st args))
  = Globals.showDetail (globals st) || bool_decide ("-showDetail" ∈ args) ∧
  Globals.debug (globals (foldl (argStep lower glob) st args))
  = Globals.debug (globals st) || bool_decide ("-debug" ∈ args) ∧
  Globals.onlyFirst (globals (foldl (argStep lower glob) st args))
  = Globals.onlyFirst (globals st) || bool_decide ("-onlyFirst" ∈ args).
Proof.
  revert st. induction args as [|arg args IH]; intros st Hstart Hend Hs He.
  { cbn [foldl]. rewrite !bool_decide_eq_false_2 by set_solver.
    by rewrite !orb_false_r. }
  cbn [foldl].
  destruct (argStep_switches st arg Hstart Hend) as (Hs1 & He1 & Hd & Hg & Ho & _);
    [set_solver..|].
  destruct (IH (argStep lower glob st arg)) as (Hd' & Hg' & Ho');
    [congruence|congruence|set_solver..|].
  rewrite Hd', Hg', Ho', Hd, Hg, Ho, <- !orb_assoc.
  by rewrite !bool_decide_elem_cons.
Qed.

Lemma foldl_argStep_quiet args st :
  Globals.start (globals st) ≠ Globals.Awaited →
  Globals.end_ (globals st) ≠ Globals.Awaited →
  "-start" ∉ args → "-end" ∉ args →
  Globals.start (globals (foldl (argStep lower glob) st args))
  = Globals.start (globals st) ∧
  Globals.end_ (globals (foldl (argStep lower glob) st args))
  = Globals.end_ (globals st) ∧
  ("-error0" ∉ args → "-error1" ∉ args →
   Globals.typeFilter (globals (foldl (argStep lower glob) st args))
   = Globals.typeFilter (globals st)).
Proof.
  revert st. induction args as [|arg args IH]; intros st Hstart Hend Hs He;
    [done|].
  cbn [foldl]. apply not_elem_of_cons in Hs as [Hs Hs'].
  apply not_elem_of_cons in He as [He He'].
  destruct (argStep_switches st arg Hstart Hend)
    as (Hs1 & He1 & _ & _ & _ & Htf); [done..|].
  destruct (IH (argStep lower glob st arg)) as (Hs2 & He2 & Htf2);
    [congruence|congruence|done..|].
  split; [congruence|]. split; [congruence|].
  intros [H0 H0']%not_elem_of_cons [H1 H1']%not_elem_of_cons.
  rewrite (Htf2 H0' H1'), Htf.
  by rewrite !bool_decide_eq_false_2 by done.
Qed.

(** X22: of several type-filter options the last one decides: when neither
    [-start] nor [-end] is among the arguments, the type filter after the
    loop is 0 when the last of the options [-error0] and [-error1] in the
    argument list is [-error0], and 1 when it is [-error1]. *)
Theorem typeFilter_last_option_wins before flag after st :
  Globals.start (globals st) ≠ Globals.Awaited →
  Globals.end_ (globals st) ≠ Globals.Awaited →
  "-start" ∉ before ++ flag :: after → "-end" ∉ before ++ flag :: after →
  flag = "-error0" ∨ flag = "-error1" →
  "-error0" ∉ after → "-error1" ∉ after →
  Globals.typeFilter
    (globals (foldl (argStep lower glob) st (before ++ flag :: after)))
  = Some (if bool_decide (flag = "-error0") then 0%Z else 1%Z).
Proof.
  intros Hstart Hend Hs He Hflag H0 H1. rewrite foldl_app. cbn [foldl].
  apply not_elem_of_app in Hs as [Hs [Hsf Hs']%not_elem_of_cons].
  apply not_elem_of_app in He as [He [Hef He']%not_elem_of_cons].
  destruct (foldl_argStep_quiet before st Hstart Hend Hs He) as (Hs1 & He1 & _).
  set (st1 := foldl (argStep lower glob) st before) in *.
  assert (Globals.start (globals st1) ≠ Globals.Awaited) as Hstart1 by congruence.
  assert (Globals.end_ (globals st1) ≠ Globals.Awaited) as Hend1 by congruence.
  destruct (argStep_switches st1 flag Hstart1 Hend1)
    as (Hs2 & He2 & _ & _ & _ & Htf); [done..|].
  destruct (foldl_argStep_quiet after (argStep lower glob st1 flag))
    as (_ & _ & Hkeep); [congruence|congruence|done..|].
  rewrite (Hkeep H0 H1), Htf.
  destruct Hflag as [->| ->]; done.
Qed.
End CommandLineProofs.

(** * The loop over the log files *)

Lemma mainLoop_cons typeFilter f e es :
  mainLoop typeFilter f (e :: es)
  = match mainMatchEvent typeFilter f e with
    | Raised exn => Raised exn
    | Returned (f', _) l =>
        match mainLoop typeFilter f' es with
        | Raised exn => Raised exn
        | Returned f2 l' => Returned f2 (l ++ l')
        end
    end.
Proof.
  cbn [mainLoop]. by destruct (mainMatchEvent typeFilter f e) as [[f' r] l|].
Qed.

Lemma mainLoop_app_Returned typeFilter f a b f1 l1 f2 l2 :
  mainLoop typeFilter f a = Returned f1 l1 →
  mainLoop typeFilter f1 b = Returned f2 l2 →
  ∃ l, mainLoop typeFilter f (a ++ b) = Returned f2 l.
Proof.
  revert f l1. induction a as [|e a IH]; intros f l1.
  - intros [= -> _] Hb. cbn [app]. eauto.
  - cbn [app]. rewrite !mainLoop_cons.
    destruct (mainMatchEvent typeFilter f e) as [[f' r] l|exn]; [|done].
    destruct (mainLoop typeFilter f' a) as [f1' l1'|exn] eqn:Ha; [|done].
    intros [= -> _] Hb. destruct (IH f' l1' Ha Hb) as [l' ->]. eauto.
Qed.

Lemma mainLoop_app_Raised typeFilter f a b exn :
  (mainLoop typeFilter f a = Raised exn ∨
   ∃ f1 l1, mainLoop typeFilter f a = Returned f1 l1 ∧
            mainLoop typeFilter f1 b = Raised exn) →
  mainLoop typeFilter f (a ++ b) = Raised exn.
Proof.
  revert f. induction a as [|e a IH]; intros f.
  - cbn [app]. intros [?|(f1 & l1 & [= <- _] & Hb)]; done.
  - cbn [app]. rewrite !mainLoop_cons.
    destruct (mainMatchEvent typeFilter f e) as [[f' r] l|exn'].
    + intros Hcases. rewrite (IH f'); [done|].
      destruct (mainLoop typeFilter f' a) as [f1' l1'|exn'] eqn:Ha.
      * destruct Hcases as [?|(f1 & l1 & [= <- _] & Hb)]; [done|]. eauto.
      * destruct Hcases as [[= ->]|(f1 & l1 & ? & _)]; [by left|done].
    + intros [?|(f1 & l1 & ? & _)]; done.
Qed.

Section MainLoopProofs.
Variable line_regex_match : string → option LineMatch.
Variable int_ : string → option Z.
Variable strip : string → string.
Variable readlines : string → option (list string).
Variable format_file : FileArg → string.
Variable typeFilter : option Z.
Variable debug : bool.

#[local] Abbreviation eventOf := (eventOfLine line_regex_match int_ strip).
#[local] Abbreviation lineLoop' :=
  (lineLoop line_regex_match int_ strip typeFilter).
#[local] Abbreviation fileLoop' :=
  (fileLoop line_regex_match int_ strip readlines format_file typeFilter debug).

Lemma omap_cons_match {A B} (f : A → option B) x l :
  omap f (x :: l)
  = match f x with Some y => y :: omap f l | None => omap f l end.
Proof. done. Qed.

Lemma lineLoop_mainLoop in_file st :
  match mainLoop typeFilter (patterns st) (omap eventOf in_file) with
  | Returned _patterns' _ =>
      ∃ st', lineLoop' st in_file = Finished st' ∧
             patterns st' = _patterns' ∧
             lines st' = lines st + length in_file ∧
             matches st'
             = matches st
               + length (filter (λ l, is_Some (line_regex_match l)) in_file)
  | Raised exn => lineLoop' st in_file = Aborted (Matching exn)
  end.
Proof.
  revert st. induction in_file as [|line rest IH]; intros st.
  { cbn. exists st. repeat split; lia. }
  cbn [lineLoop]. rewrite omap_cons_match, filter_cons. unfold lineStep.
  assert (eventOf line = line_regex_match line ≫= newEvent int_ strip) as ->
    by done.
  destruct (line_regex_match line) as [m|] eqn:Hm; cbn [mbind option_bind].
  - rewrite decide_True by eauto. destruct (newEvent int_ strip m) as [e|].
    + rewrite mainLoop_cons.
      destruct (mainMatchEvent typeFilter (patterns st) e) as [[f r] l|exn];
        [|done].
      specialize (IH (mkLoopState (lines st + 1) (matches st + 1) f (stdout st))).
      cbn [patterns lines matches] in IH.
      destruct (mainLoop typeFilter f (omap eventOf rest)) as [f' l'|exn];
        [|done].
      destruct IH as (st' & Hrun & Hf & Hl & Hmt). exists st'.
      repeat split; [done|done|simpl; lia|simpl; lia].
    + specialize (IH (mkLoopState (lines st + 1) (matches st + 1) (patterns st)
                        (stdout st ++ ["Matching line skipped: " +:+ line]))).
      cbn [patterns lines matches] in IH.
      destruct (mainLoop typeFilter (patterns st) (omap eventOf rest))
        as [f' l'|exn]; [|done].
      destruct IH as (st' & Hrun & Hf & Hl & Hmt). exists st'.
      repeat split; [done|done|simpl; lia|simpl; lia].
  - rewrite decide_False by (by intros [? ?]).
    specialize (IH (mkLoopState (lines st + 1) (matches st) (patterns st)
                      (stdout st))).
    cbn [patterns lines matches] in IH.
    destruct (mainLoop typeFilter (patterns st) (omap eventOf rest))
      as [f' l'|exn]; [|done].
    destruct IH as (st' & Hrun & Hf & Hl & Hmt). exists st'.
    repeat split; [done|done|simpl; lia|simpl; lia].
Qed.

(** X23: the loop over the files does to the forest what feeding the
    events of all their lines, in reading order, to the matcher does: lines
    that do not match the line grammar, or whose type [int] rejects, change
    nothing; the line counter grows by the number of lines and the match
    counter by the number of lines that match the grammar; an exception out
    of the matcher ends the loop. *)
Theorem fileLoop_feeds_matcher files st all_lines :
  allLines readlines files = Some all_lines →
  match mainLoop typeFilter (patterns st) (omap eventOf all_lines) with
  | Returned _patterns' _ =>
      ∃ st', fileLoop' st files = Finished st' ∧
             patterns st' = _patterns' ∧
             lines st' = lines st + length all_lines ∧
             matches st'
             = matches st
               + length (filter (λ l, is_Some (line_regex_match l)) all_lines)
  | Raised exn => fileLoop' st files = Aborted (Matching exn)
  end.
Proof.
  revert st all_lines. induction files as [|[path|l] rest IH]; intros st all_lines.
  - intros [= <-]. cbn. exists st. repeat split; lia.
  - cbn [allLines fileLoop]. unfold fileStep.
    destruct (readlines path) as [in_file|]; [|done]. cbn [mbind option_bind].
    destruct (allLines readlines rest) as [more|] eqn:Hmore; [|done].
    intros [= <-]. rewrite omap_app, filter_app, !length_app.
    set (st0 := if debug
                then mkLoopState (lines st) (matches st) (patterns st)
                       (stdout st ++ ["********* Processing file "
                                      +:+ format_file (inl path) +:+ nl])
                else st).
    assert (patterns st0 = patterns st ∧ lines st0 = lines st ∧
            matches st0 = matches st) as (Hp0 & Hl0 & Hm0)
      by (subst st0; by destruct debug).
    pose proof (lineLoop_mainLoop in_file st0) as Hfile. rewrite Hp0 in Hfile.
    destruct (mainLoop typeFilter (patterns st) (omap eventOf in_file))
      as [f1 l1|exn] eqn:Hfirst.
    + destruct Hfile as (st1 & -> & Hf1 & Hl1 & Hm1).
      specialize (IH st1 more eq_refl). rewrite Hf1 in IH.
      destruct (mainLoop typeFilter f1 (omap eventOf more)) as [f2 l2|exn]
        eqn:Hsecond.
      * destruct (mainLoop_app_Returned _ _ _ _ _ _ _ _ Hfirst Hsecond) as [l ->].
        destruct IH as (st' & Hrun & Hf & Hl & Hmt). exists st'.
        repeat split; [done|done|lia|lia].
      * rewrite (mainLoop_app_Raised _ _ _ _ exn); [done|]. right. eauto.
    + rewrite (mainLoop_app_Raised _ _ _ _ exn); [|by left]. by rewrite Hfile.
  - done.
Qed.

Lemma fileLoop_inr_aborts files st l :
  inr l ∈ files → ∃ e, fileLoop' st files = Aborted e.
Proof.
  revert st. induction files as [|f rest IH]; intros st Hin.
  { by apply elem_of_nil in Hin. }
  cbn [fileLoop].
  destruct (fileStep _ _ _ _ _ _ _ st f) as [st'|e] eqn:Hstep; [|eauto].
  apply IH. apply elem_of_cons in Hin as [<-|Hin]; [|done].
  unfold fileStep in Hstep. by cbv zeta iota in Hstep.
Qed.
End MainLoopProofs.

Lemma argStep_wildcard lower glob st arg :
  Globals.start (globals st) ≠ Globals.Awaited →
  Globals.end_ (globals st) ≠ Globals.Awaited →
  found "." arg = true → found "*" arg = true →
  found ".csv" (lower arg) = false →
  files (argStep lower glob st arg) = files st ++ [inr (glob arg)].
Proof.
  intros Hstart Hend Hdot Hstar Hcsv.
  destruct st as [[su s e o f d t dbg] fs us out].
  cbn [globals Globals.start Globals.end_] in *. unfold argStep.
  cbn [globals Globals.start Globals.end_]. rewrite Hcsv, Hdot, Hstar.
  destruct s, e; try done;
    repeat match goal with
           | |- context [String.eqb arg ?s] =>
               destruct (String.eqb_spec arg s) as [->|_]; [by vm_compute in Hdot|]
           end; done.
Qed.

Lemma foldl_argStep_keeps_files lower glob args st f :
  f ∈ files st → f ∈ files (foldl (argStep lower glob) st args).
Proof.
  intros Hin.
  destruct (foldl_argStep_sources lower glob args st) as (_ & Htake & _).
  rewrite <- Htake in Hin. apply elem_of_take in Hin as (i & Hi & _).
  by eapply list_elem_of_lookup_2.
Qed.

(** X24: a wildcard never works.  An argument with a dot and a star in it
    that is no pattern file puts the list that [glob.glob] returns into
    [files] as one element; [myMain] passes it on to [mainLoop], and the loop
    over the files ends with an exception, [TypeError] from [open] at the
    latest, and never runs to its end. *)
Theorem wildcard_argument_aborts lower glob line_regex_match int_ strip
    readlines format_file typeFilter debug g argv arg st :
  Globals.start g ≠ Globals.Awaited →
  Globals.end_ g ≠ Globals.Awaited →
  is_Some (Globals.eventPatternFile g) →
  "-start" ∉ drop 1 argv → "-end" ∉ drop 1 argv →
  arg ∈ drop 1 argv →
  found "." arg = true → found "*" arg = true →
  found ".csv" (lower arg) = false →
  ∃ fs us,
    (myMain lower glob g argv).2 = Some (fs, us) ∧
    inr (glob arg) ∈ fs ∧
    ∃ e, fileLoop line_regex_match int_ strip readlines format_file typeFilter
           debug st fs = Aborted e.
Proof.
  intros Hstart Hend Hfile Hs He Hin Hdot Hstar Hcsv.
  assert (inr (glob arg) ∈ files (parseArgs lower glob g argv)) as Hfiles.
  { unfold parseArgs. revert Hs He Hin. generalize (drop 1 argv) as args.
    intros args Hs He Hin.
    apply list_elem_of_split in Hin as (before & after & ->).
    rewrite foldl_app. cbn [foldl].
    apply not_elem_of_app in Hs as [Hs _]. apply not_elem_of_app in He as [He _].
    destruct (foldl_argStep_quiet lower glob before (mkArgState g [] [] []))
      as (Hs1 & He1 & _); [done..|].
    cbn [globals] in Hs1, He1.
    apply foldl_argStep_keeps_files.
    rewrite argStep_wildcard; [set_solver|congruence|congruence|done..]. }
  unfold myMain.
  assert ((Z.of_nat (length argv) <? 0)%Z = false) as -> by (apply Z.ltb_ge; lia).
  cbn [snd]. unfold launch.
  destruct (foldl_argStep_eventPatternFile lower glob (drop 1 argv)
              (mkArgState g [] [] []) Hfile) as [f Hf].
  fold (parseArgs lower glob g argv) in Hf. rewrite Hf.
  destruct (files (parseArgs lower glob g argv)) as [|x fs] eqn:Hfs.
  { by apply elem_of_nil in Hfiles. }
  cbn [length Nat.ltb Nat.leb]. eexists _, _. split; [done|]. split; [done|].
  by eapply fileLoop_inr_aborts.
Qed.

(** * More worked examples *)

Lemma syncNode_pattern_ok : pattern_ok syncNode.
Proof. constructor; [apply syncNode_ok|constructor]. Qed.

Lemma mainMatchEvent_returned_example :
  Forall pattern_ok (loaded nestedRows) ∧
  ∃ _patterns' r log,
    mainMatchEvent None (loaded nestedRows) (logged 0 "foo bar baz")
    = Returned (_patterns', r) log ∧
    match r with
    | None => _patterns' = loaded nestedRows
    | Some returned =>
        ∃ q n m n',
          derefForest (loaded nestedRows) q = Some n ∧
          Re.match_ (regEx n) (Event.message (logged 0 "foo bar baz")) = Some m ∧
          addEvent n (logged 0 "foo bar baz") m = Returned n' [] ∧
          derefForest _patterns' q = Some n' ∧
          matchCount n' = S (matchCount n) ∧
          returned = take 2 q
    end.
Proof.
  split; [apply loaded_ok|].
  apply (mainMatchEvent_returned None (loaded nestedRows)
           (logged 0 "foo bar baz")).
  apply loaded_ok.
Defined.

Lemma mainLoop_events_in_order_example :
  Forall pattern_ok (loaded nestedRows) ∧
  ∃ _patterns' log,
    mainLoop None (loaded nestedRows)
      [logged 0 "foo bar baz"; logged 0 "foo"; logged 1 "foo bar baz"]
    = Returned _patterns' log ∧
    ∀ q n, derefForest (loaded nestedRows) q = Some n →
      ∃ n', derefForest _patterns' q = Some n' ∧
            events n'
            = events n
              ++ filter (λ e, spec_deepest None (loaded nestedRows) e = Some q)
                   [logged 0 "foo bar baz"; logged 0 "foo";
                    logged 1 "foo bar baz"].
Proof.
  split; [apply loaded_ok|].
  apply (mainLoop_events_in_order None (loaded nestedRows)
           [logged 0 "foo bar baz"; logged 0 "foo"; logged 1 "foo bar baz"]).
  apply loaded_ok.
Defined.

Lemma mainLoop_total_count_example :
  Forall pattern_ok (loaded nestedRows) ∧
  ∃ _patterns' log,
    mainLoop None (loaded nestedRows)
      [logged 0 "foo bar baz"; logged 0 "bar"; logged 1 "foo"]
    = Returned _patterns' log ∧
    totalCountForest _patterns'
    = totalCountForest (loaded nestedRows)
      + length (filter (λ e, reachesForest None (loaded nestedRows) e = true)
                  [logged 0 "foo bar baz"; logged 0 "bar"; logged 1 "foo"]).
Proof.
  split; [apply loaded_ok|].
  apply (mainLoop_total_count None (loaded nestedRows)
           [logged 0 "foo bar baz"; logged 0 "bar"; logged 1 "foo"]).
  apply loaded_ok.
Defined.

Lemma mainLoop_keeps_shape_example :
  Forall pattern_ok (loaded nestedRows) ∧
  ∃ _patterns' log,
    mainLoop None (loaded nestedRows)
      [logged 0 "foo bar baz"; logged 0 "bar"; logged 1 "foo"]
    = Returned _patterns' log ∧
    length _patterns' = length (loaded nestedRows) ∧
    ∀ q, option_Forall2 sameIdentity (derefForest (loaded nestedRows) q)
           (derefForest _patterns' q).
Proof.
  split; [apply loaded_ok|].
  apply (mainLoop_keeps_shape None (loaded nestedRows)
           [logged 0 "foo bar baz"; logged 0 "bar"; logged 1 "foo"]).
  apply loaded_ok.
Defined.

Lemma mainLoop_values_grow_example :
  Forall pattern_ok (loaded loginRows) ∧
  ∃ _patterns' log,
    mainLoop None (loaded loginRows)
      [logged 0 "Login alice"; logged 0 "Login bob"]
    = Returned _patterns' log ∧
    ∀ q n, derefForest (loaded loginRows) q = Some n →
      ∃ n', derefForest _patterns' q = Some n' ∧
            ∀ i s, groupValues n !! i = Some s →
              ∃ s', groupValues n' !! i = Some s' ∧ s ⊆ s'.
Proof.
  split; [apply loaded_ok|].
  apply (mainLoop_values_grow None (loaded loginRows)
           [logged 0 "Login alice"; logged 0 "Login bob"]).
  apply loaded_ok.
Defined.

Lemma credited_node_matches_example :
  Forall pattern_ok (loaded nestedRows) ∧
  mainMatchEvent None (loaded nestedRows) (logged 0 "foo bar baz")
  = Returned (updateForest (recorded (logged 0 "foo bar baz")) [0; 0; 0]
                (loaded nestedRows), Some [0; 0])
      [("A", "foo bar baz"); ("A", "foo bar baz"); ("B", "foo bar baz");
       ("C", "foo bar baz")] ∧
  derefForest (loaded nestedRows) [0; 0; 0] = Some nestedC ∧
  derefForest (updateForest (recorded (logged 0 "foo bar baz")) [0; 0; 0]
                 (loaded nestedRows)) [0; 0; 0]
  = Some (recorded (logged 0 "foo bar baz") nestedC) ∧
  matchCount (recorded (logged 0 "foo bar baz") nestedC) ≠ matchCount nestedC ∧
  filteredOut None (logged 0 "foo bar baz") = false ∧
  (∀ k, 0 < k →
     ∃ a, derefForest (loaded nestedRows) (take k [0; 0; 0]) = Some a ∧
          is_Some (Re.match_ (regEx a)
                     (Event.message (logged 0 "foo bar baz")))) ∧
  is_Some (Re.match_ (regEx nestedC) (Event.message (logged 0 "foo bar baz"))) ∧
  Forall (λ c, Re.match_ (regEx c) (Event.message (logged 0 "foo bar baz"))
               = None)
    (subPatterns nestedC).
Proof.
  assert (mainMatchEvent None (loaded nestedRows) (logged 0 "foo bar baz")
          = Returned (updateForest (recorded (logged 0 "foo bar baz")) [0; 0; 0]
                        (loaded nestedRows), Some [0; 0])
              [("A", "foo bar baz"); ("A", "foo bar baz"); ("B", "foo bar baz");
               ("C", "foo bar baz")]) as Hrun by (by vm_compute).
  assert (derefForest (loaded nestedRows) [0; 0; 0] = Some nestedC) as Hq
    by (by vm_compute).
  assert (derefForest (updateForest (recorded (logged 0 "foo bar baz")) [0; 0; 0]
                         (loaded nestedRows)) [0; 0; 0]
          = Some (recorded (logged 0 "foo bar baz") nestedC)) as Hq'
    by (by vm_compute).
  assert (matchCount (recorded (logged 0 "foo bar baz") nestedC)
          ≠ matchCount nestedC) as Hcount by (by vm_compute).
  split; [apply loaded_ok|]. split; [exact Hrun|]. split; [exact Hq|].
  split; [exact Hq'|]. split; [exact Hcount|].
  apply (credited_node_matches None (loaded nestedRows) (logged 0 "foo bar baz")
           _ _ _ [0; 0; 0] nestedC _ (loaded_ok nestedRows) Hrun Hq Hq' Hcount).
Defined.

Lemma init_unresolved_parent_dropped_example :
  exampleCompile "foo bar" = Some fooBarRegex ∧
  "Z" ≠ "" ∧
  (∀ q n, derefForest (loaded nestedRows) q = Some n → patternId n ≠ "Z") ∧
  __init__ exampleCompile (loaded nestedRows) "D" "foo bar" "Z"
  = Returned (loaded nestedRows) [].
Proof.
  assert (∀ q n, derefForest (loaded nestedRows) q = Some n → patternId n ≠ "Z")
    as Hnone.
  { intros q n Hq Hid.
    assert (is_Some (findParent (loaded nestedRows) "Z")) as [r Hr]
      by (by eapply findParent_complete).
    by vm_compute in Hr. }
  split; [reflexivity|]. split; [done|]. split; [exact Hnone|].
  apply (init_unresolved_parent_dropped exampleCompile (loaded nestedRows)
           "D" "foo bar" "Z" fooBarRegex).
  - reflexivity.
  - done.
  - exact Hnone.
Defined.

Lemma findParent_first_root_example :
  findParent (loaded duplicateRows) "D" = Some [1] ∧
  (patternId <$> derefForest (loaded duplicateRows) [0]) = Some "Startup" ∧
  (patternId <$> derefForest (loaded duplicateRows) [1]) = Some "D" ∧
  (patternId <$> derefForest (loaded duplicateRows) [1; 0]) = Some "D" ∧
  (patternId <$> derefForest (loaded duplicateRows) [2]) = Some "D" ∧
  (∀ j p q n, j < 1 → loaded duplicateRows !! j = Some p →
     deref p q = Some n → patternId n ≠ "D") ∧
  (∀ p, loaded duplicateRows !! 1 = Some p → patternId p = "D" →
     ([] : list nat) = []).
Proof.
  split; [by vm_compute|]. split; [by vm_compute|]. split; [by vm_compute|].
  split; [by vm_compute|]. split; [by vm_compute|].
  apply (findParent_first_root (loaded duplicateRows) "D" 1 []).
  by vm_compute.
Defined.

Lemma loadCsvFile_bad_regex_example :
  Exists (λ row, exampleCompile (MessageRegEx row) = None)
    [mkRow "A" "foo.*" ""; mkRow "Broken" "(foo" ""; mkRow "B" "foo bar" "A"] ∧
  loadCsvFile exampleCompile []
    [mkRow "A" "foo.*" ""; mkRow "Broken" "(foo" ""; mkRow "B" "foo bar" "A"]
  = Raised ReError.
Proof.
  assert (Exists (λ row, exampleCompile (MessageRegEx row) = None)
            [mkRow "A" "foo.*" ""; mkRow "Broken" "(foo" "";
             mkRow "B" "foo bar" "A"]) as Hbad.
  { apply Exists_cons_tl, Exists_cons_hd. reflexivity. }
  split; [exact Hbad|].
  apply (loadCsvFile_bad_regex exampleCompile []
           [mkRow "A" "foo.*" ""; mkRow "Broken" "(foo" "";
            mkRow "B" "foo bar" "A"] Hbad).
Defined.

Lemma loadCsvFile_asConstructed_example :
  loadCsvFile exampleCompile [] nestedRows = Returned (loaded nestedRows) [] ∧
  ∀ q n, derefForest (loaded nestedRows) q = Some n →
    asConstructed n ∧ matchCount n = 0 ∧
    length (groupValues n) = length (Re.groupindex (regEx n)) ∧
    Forall (λ s, s = ∅) (groupValues n).
Proof.
  split; [by vm_compute|].
  apply (loadCsvFile_asConstructed exampleCompile nestedRows
           (loaded nestedRows) []).
  by vm_compute.
Defined.

Lemma loadCsvFile_children_under_parent_example :
  loadCsvFile exampleCompile [] nestedRows = Returned (loaded nestedRows) [] ∧
  (∀ i p, loaded nestedRows !! i = Some p → parentId p = "") ∧
  (∀ q n k c, derefForest (loaded nestedRows) q = Some n →
     subPatterns n !! k = Some c →
     parentId c = patternId n ∧ parentId c ≠ "").
Proof.
  split; [by vm_compute|].
  apply (loadCsvFile_children_under_parent exampleCompile nestedRows
           (loaded nestedRows) []).
  by vm_compute.
Defined.

Lemma groupLines_pairs_visible_names_example :
  Forall (λ g, g ≠ "") ["_kind"; "user"] ∧
  length ["_kind"; "user"] ≤ length [{["Login"]}; {["alice"]} : gset string] ∧
  groupLines false elements [{["Login"]}; {["alice"]}] 0 ["_kind"; "user"]
  = Returned (groupLinesOf elements
                (zip (filter (λ n, hiddenGroup false n = false)
                        ["_kind"; "user"])
                   [{["Login"]}; {["alice"]}])) [].
Proof.
  assert (Forall (λ g, g ≠ "") ["_kind"; "user"]) as Hne
    by (by repeat constructor).
  split; [exact Hne|]. split; [reflexivity|].
  apply (groupLines_pairs_visible_names false elements
           [{["Login"]}; {["alice"]}] ["_kind"; "user"] Hne).
  reflexivity.
Defined.

Lemma groupLines_own_values_example :
  Forall (λ g, g ≠ "") ["_kind"; "user"] ∧
  length ["_kind"; "user"] ≤ length [{["Login"]}; {["alice"]} : gset string] ∧
  (true = true ∨ Forall (λ n, hiddenGroup false n = false) ["_kind"; "user"]) ∧
  groupLines true elements [{["Login"]}; {["alice"]}] 0 ["_kind"; "user"]
  = Returned (groupLinesOf elements
                (zip ["_kind"; "user"] [{["Login"]}; {["alice"]}])) [].
Proof.
  assert (Forall (λ g, g ≠ "") ["_kind"; "user"]) as Hne
    by (by repeat constructor).
  split; [exact Hne|]. split; [reflexivity|]. split; [by left|].
  apply (groupLines_own_values true elements
           [{["Login"]}; {["alice"]}] ["_kind"; "user"] Hne).
  - reflexivity.
  - by left.
Defined.

Lemma str_empty_iff_example :
  pattern_ok syncNode ∧
  ∃ text,
    __str__ false elements syncNode = Returned text [] ∧
    (text = "" ↔
     matchCount syncNode = 0 ∧ false = false ∧ subPatterns syncNode = []).
Proof.
  split; [apply syncNode_pattern_ok|].
  apply (str_empty_iff false elements syncNode). apply syncNode_pattern_ok.
Defined.

Lemma printResults_empty_lines_example :
  Forall (λ p, matchCount p = 0 ∧ subPatterns p = []) [syncNode; nodeC] ∧
  printResults false elements [syncNode; nodeC]
  = Returned (emptyLines (length [syncNode; nodeC])) [].
Proof.
  assert (Forall (λ p, matchCount p = 0 ∧ subPatterns p = []) [syncNode; nodeC])
    as Hleaves by (by repeat constructor).
  split; [exact Hleaves|].
  apply (printResults_empty_lines elements [syncNode; nodeC] Hleaves).
Defined.

Lemma bound_value_taken_literally_example :
  Globals.start (globals (mkArgState Globals.initial [] [] []))
  ≠ Globals.Awaited ∧
  Globals.end_ (globals (mkArgState Globals.initial [] [] []))
  ≠ Globals.Awaited ∧
  Globals.showDetail
    (globals (argStep asciiLower exampleGlob
                (argStep asciiLower exampleGlob
                   (mkArgState Globals.initial [] [] []) "-start")
                "-showDetail"))
  = false ∧
  Globals.start
    (globals (argStep asciiLower exampleGlob
                (argStep asciiLower exampleGlob
                   (mkArgState Globals.initial [] [] []) "-start")
                "-showDetail"))
  = Globals.Given "-showDetail".
Proof.
  split; [done|]. split; [done|].
  destruct (bound_value_taken_literally asciiLower exampleGlob
              (mkArgState Globals.initial [] [] []) "-showDetail")
    as [(Hg & _ & _) _]; [done..|].
  rewrite Hg. by split.
Defined.

Lemma myMain_always_runs_example :
  is_Some (Globals.eventPatternFile Globals.initial) ∧
  ∃ fs us,
    (myMain asciiLower exampleGlob Globals.initial ["prog"; "-error1"; "Anna"]).2
    = Some (fs, us) ∧ fs ≠ [].
Proof.
  split; [by eexists|].
  apply (myMain_always_runs asciiLower exampleGlob Globals.initial
           ["prog"; "-error1"; "Anna"]).
  by eexists.
Defined.

Lemma switches_position_independent_example :
  Globals.start (globals (mkArgState Globals.initial [] [] []))
  ≠ Globals.Awaited ∧
  Globals.end_ (globals (mkArgState Globals.initial [] [] []))
  ≠ Globals.Awaited ∧
  ("-start" ∉ ["a.log"; "-showDetail"; "b.log"]) ∧
  ("-end" ∉ ["a.log"; "-showDetail"; "b.log"]) ∧
  Globals.showDetail
    (globals (foldl (argStep asciiLower exampleGlob)
                (mkArgState Globals.initial [] [] [])
                ["a.log"; "-showDetail"; "b.log"]))
  = Globals.showDetail (globals (mkArgState Globals.initial [] [] []))
    || bool_decide ("-showDetail" ∈ ["a.log"; "-showDetail"; "b.log"]) ∧
  Globals.debug
    (globals (foldl (argStep asciiLower exampleGlob)
                (mkArgState Globals.initial [] [] [])
                ["a.log"; "-showDetail"; "b.log"]))
  = Globals.debug (globals (mkArgState Globals.initial [] [] []))
    || bool_decide ("-debug" ∈ ["a.log"; "-showDetail"; "b.log"]) ∧
  Globals.onlyFirst
    (globals (foldl (argStep asciiLower exampleGlob)
                (mkArgState Globals.initial [] [] [])
                ["a.log"; "-showDetail"; "b.log"]))
  = Globals.onlyFirst (globals (mkArgState Globals.initial [] [] []))
    || bool_decide ("-onlyFirst" ∈ ["a.log"; "-showDetail"; "b.log"]).
Proof.
  assert ("-start" ∉ ["a.log"; "-showDetail"; "b.log"]) as Hs
    by (by apply (bool_decide_unpack _)).
  assert ("-end" ∉ ["a.log"; "-showDetail"; "b.log"]) as He
    by (by apply (bool_decide_unpack _)).
  split; [done|]. split; [done|]. split; [exact Hs|]. split; [exact He|].
  apply (switches_position_independent asciiLower exampleGlob
           ["a.log"; "-showDetail"; "b.log"]
           (mkArgState Globals.initial [] [] [])); done.
Defined.

Lemma typeFilter_last_option_wins_example :
  Globals.start (globals (mkArgState Globals.initial [] [] []))
  ≠ Globals.Awaited ∧
  Globals.end_ (globals (mkArgState Globals.initial [] [] []))
  ≠ Globals.Awaited ∧
  ("-start" ∉ ["-error0"; "a.log"] ++ "-error1" :: ["b.log"]) ∧
  ("-end" ∉ ["-error0"; "a.log"] ++ "-error1" :: ["b.log"]) ∧
  ("-error1" = "-error0" ∨ "-error1" = "-error1") ∧
  ("-error0" ∉ ["b.log"]) ∧ ("-error1" ∉ ["b.log"]) ∧
  Globals.typeFilter
    (globals (foldl (argStep asciiLower exampleGlob)
                (mkArgState Globals.initial [] [] [])
                (["-error0"; "a.log"] ++ "-error1" :: ["b.log"])))
  = Some (if bool_decide ("-error1" = "-error0") then 0%Z else 1%Z).
Proof.
  assert ("-start" ∉ ["-error0"; "a.log"] ++ "-error1" :: ["b.log"]) as Hs
    by (by apply (bool_decide_unpack _)).
  assert ("-end" ∉ ["-error0"; "a.log"] ++ "-error1" :: ["b.log"]) as He
    by (by apply (bool_decide_unpack _)).
  assert ("-error0" ∉ ["b.log"]) as H0 by (by apply (bool_decide_unpack _)).
  assert ("-error1" ∉ ["b.log"]) as H1 by (by apply (bool_decide_unpack _)).
  split; [done|]. split; [done|]. split; [exact Hs|]. split; [exact He|].
  split; [by right|]. split; [exact H0|]. split; [exact H1|].
  apply (typeFilter_last_option_wins asciiLower exampleGlob
           ["-error0"; "a.log"] "-error1" ["b.log"]
           (mkArgState Globals.initial [] [] [])); try done.
  by right.
Defined.

Lemma fileLoop_feeds_matcher_example :
  allLines exampleReadlines [inl "events.log"]
  = Some [exampleLine; "not a line of the log" +:+ nl; exampleLine] ∧
  match mainLoop None (patterns (mkLoopState 0 0 (loaded nestedRows) []))
          (omap (eventOfLine exampleLineMatch exampleInt exampleStrip)
             [exampleLine; "not a line of the log" +:+ nl; exampleLine]) with
  | Returned _patterns' _ =>
      ∃ st', fileLoop exampleLineMatch exampleInt exampleStrip exampleReadlines
               exampleFormat None false
               (mkLoopState 0 0 (loaded nestedRows) []) [inl "events.log"]
             = Finished st' ∧
             patterns st' = _patterns' ∧
             lines st'
             = lines (mkLoopState 0 0 (loaded nestedRows) [])
               + length [exampleLine; "not a line of the log" +:+ nl;
                         exampleLine] ∧
             matches st'
             = matches (mkLoopState 0 0 (loaded nestedRows) [])
               + length (filter (λ l, is_Some (exampleLineMatch l))
                           [exampleLine; "not a line of the log" +:+ nl;
                            exampleLine])
  | Raised exn =>
      fileLoop exampleLineMatch exampleInt exampleStrip exampleReadlines
        exampleFormat None false
        (mkLoopState 0 0 (loaded nestedRows) []) [inl "events.log"]
      = Aborted (Matching exn)
  end.
Proof.
  split; [reflexivity|].
  apply (fileLoop_feeds_matcher exampleLineMatch exampleInt exampleStrip
           exampleReadlines exampleFormat None false [inl "events.log"]
           (mkLoopState 0 0 (loaded nestedRows) [])
           [exampleLine; "not a line of the log" +:+ nl; exampleLine]).
  reflexivity.
Defined.

Lemma wildcard_argument_aborts_example :
  Globals.start Globals.initial ≠ Globals.Awaited ∧
  Globals.end_ Globals.initial ≠ Globals.Awaited ∧
  is_Some (Globals.eventPatternFile Globals.initial) ∧
  ("-start" ∉ drop 1 ["prog"; "logs/*.log"]) ∧
  ("-end" ∉ drop 1 ["prog"; "logs/*.log"]) ∧
  "logs/*.log" ∈ drop 1 ["prog"; "logs/*.log"] ∧
  found "." "logs/*.log" = true ∧ found "*" "logs/*.log" = true ∧
  found ".csv" (asciiLower "logs/*.log") = false ∧
  ∃ fs us,
    (myMain asciiLower exampleGlob Globals.initial ["prog"; "logs/*.log"]).2
    = Some (fs, us) ∧
    inr (exampleGlob "logs/*.log") ∈ fs ∧
    ∃ e, fileLoop exampleLineMatch exampleInt exampleStrip exampleReadlines
           exampleFormat None false
           (mkLoopState 0 0 (loaded nestedRows) []) fs = Aborted e.
Proof.
  assert ("-start" ∉ drop 1 ["prog"; "logs/*.log"]) as Hs
    by (by apply (bool_decide_unpack _)).
  assert ("-end" ∉ drop 1 ["prog"; "logs/*.log"]) as He
    by (by apply (bool_decide_unpack _)).
  assert ("logs/*.log" ∈ drop 1 ["prog"; "logs/*.log"]) as Hin
    by (by apply (bool_decide_unpack _)).
  split; [done|]. split; [done|]. split; [by eexists|].
  split; [exact Hs|]. split; [exact He|]. split; [exact Hin|].
  split; [reflexivity|]. split; [reflexivity|]. split; [reflexivity|].
  apply (wildcard_argument_aborts asciiLower exampleGlob exampleLineMatch
           exampleInt exampleStrip exampleReadlines exampleFormat None false
           Globals.initial ["prog"; "logs/*.log"] "logs/*.log"
           (mkLoopState 0 0 (loaded nestedRows) [])); done.
Defined.
